(** * alvys-sdk: token provider and request client

    A shallow embedding of [src/index.ts], the client
    ([createAlvysClient]) and the access-token provider
    ([createAlvysAccessTokenProvider]), and the properties the
    specification states about them.

    Layout: Part I holds the embedding (modules [Js], [Headers], [Client],
    [Provider], [ClientFactory]), the statements of the specification that
    are compared with it ([HeaderSpec], [TtlSpec], [Coalescing]), the
    notions used by the further properties ([HeadersInv], [Lifecycle]) and
    the concrete inputs of the examples; Part II holds the lemmas and
    theorems. *)

From Stdlib Require Import ZArith Lia Ascii String.
From stdpp Require Import base option list strings gmap fin_maps pretty.

Local Open Scope Z_scope.

(** * Part I: the embedding *)

(** ** JavaScript values the code relies on *)
Module Js.

(** [new Error(message)]. *)
Inductive Error := MkError (message : string).

(** How a promise settles. *)
Inductive Outcome (A : Type) :=
| Fulfilled (a : A)
| Rejected (e : Error).
Arguments Fulfilled {A} a.
Arguments Rejected {A} e.

(** Truthiness of a [string | undefined]: [undefined] and [''] are falsy;
    [nonEmpty v] is the string a truthy [v] holds. *)
Definition nonEmpty (v : option string) : option string :=
  match v with
  | Some s => if String.eqb s "" then None else Some s
  | None => None
  end.

(** [a ?? b]: only [undefined] falls through, the empty string does not. *)
Definition nullish {A : Type} (a b : option A) : option A :=
  match a with
  | Some _ => a
  | None => b
  end.

(** [ValueOrFactory<T>]: a value, or a function producing one.  A factory
    is impure; it is modelled by the outcome of its k-th invocation
    (k counted from 0), and the state that calls it keeps the count. *)
Inductive ValueOrFactory (T : Type) :=
| Literal (v : T)
| Factory (f : nat -> Outcome T).
Arguments Literal {T} v.
Arguments Factory {T} f.

(** [resolveValue]: calls the value when it is a function.  Returns the
    outcome and the updated invocation count. *)
Definition resolveValue {T : Type} (value : ValueOrFactory T) (calls : nat)
  : Outcome T * nat :=
  match value with
  | Factory f => (f calls, S calls)
  | Literal v => (Fulfilled v, calls)
  end.

(** ASCII lower-casing, as [Headers] applies to names. *)
Definition lower_ascii (c : ascii) : ascii :=
  let n := nat_of_ascii c in
  if ((65 <=? n)%nat && (n <=? 90)%nat)%bool then ascii_of_nat (n + 32) else c.

Fixpoint lower (s : string) : string :=
  match s with
  | EmptyString => EmptyString
  | String c r => String (lower_ascii c) (lower r)
  end.

(** [s.startsWith(p)]. *)
Definition startsWith (s p : string) : bool := String.prefix p s.

(** White space removed by [trim] (the ASCII part: TAB, LF, VT, FF, CR,
    SPACE; strings are byte strings here). *)
Definition is_space (c : ascii) : bool :=
  let n := nat_of_ascii c in
  (((9 <=? n)%nat && (n <=? 13)%nat) || (n =? 32)%nat)%bool.

Fixpoint trimStart (s : string) : string :=
  match s with
  | EmptyString => EmptyString
  | String c r => if is_space c then trimStart r else s
  end.

Fixpoint trimEnd (s : string) : string :=
  match s with
  | EmptyString => EmptyString
  | String c r =>
      match trimEnd r with
      | EmptyString => if is_space c then EmptyString else String c EmptyString
      | r' => String c r'
      end
  end.

Definition trim (s : string) : string := trimStart (trimEnd s).

End Js.

(** ** The platform's [Headers] collection and [mergeIntoHeaders] *)
Module Headers.
Import Js.

(** A [Headers] object holds at most one value per name, names compared
    case-insensitively and stored in lower case.  Validation of names and
    normalisation of values by the platform are outside the source and not
    modelled: names and values are taken as valid. *)
Abbreviation Headers := (gmap string string).

(** [target.set(name, value)]. *)
Definition set (target : Headers) (name value : string) : Headers :=
  <[lower name := value]> target.

(** [headers.forEach(cb)]: one callback per entry. *)
Definition forEach {B : Type} (headers : Headers) (cb : string -> string -> B -> B)
    (acc : B) : B :=
  foldl (fun acc kv => cb kv.1 kv.2 acc) acc (map_to_list headers).

(** Values a header entry may hold before [String(value)]. *)
Inductive HeaderValue :=
| HVString (s : string)
| HVNumber (n : Z)
| HVBoolean (b : bool)
| HVNull
| HVUndefined.

(** [String(value)] (numbers are integers here). *)
Definition String_ (v : HeaderValue) : string :=
  match v with
  | HVString s => s
  | HVNumber n => pretty n
  | HVBoolean true => "true"
  | HVBoolean false => "false"
  | HVNull => "null"
  | HVUndefined => "undefined"
  end.

(** [HeadersOptions]: a [Headers] instance, an array of pairs, or a plain
    object given by its [Object.entries] in order. *)
Inductive HeaderInput :=
| HIHeaders (h : Headers)
| HIArray (entries : list (string * HeaderValue))
| HIObject (entries : list (string * HeaderValue)).

(** The callback shared by the array and the object branch. *)
Definition setEntry (target : Headers) (kv : string * HeaderValue) : Headers :=
  match kv.2 with
  | HVUndefined | HVNull => target
  | value => set target kv.1 (String_ value)
  end.

Definition mergeIntoHeaders (target : Headers) (source : option HeaderInput) : Headers :=
  match source with
  | None => target
  | Some (HIHeaders h) => forEach h (fun key value target => set target key value) target
  | Some (HIArray entries) => foldl setEntry target entries
  | Some (HIObject entries) => foldl setEntry target entries
  end.

(** [headersToObject]: [result[key] = value] for each entry. *)
Definition headersToObject (headers : Headers) : list (string * HeaderValue) :=
  forEach headers (fun key value result => result ++ [(key, HVString value)]) [].

(** Reading property [key] of a plain object given by its entries. *)
Fixpoint prop (o : list (string * HeaderValue)) (key : string) : option HeaderValue :=
  match o with
  | [] => None
  | kv :: rest => if String.eqb kv.1 key then Some kv.2 else prop rest key
  end.

End Headers.

(** ** [createAlvysClient]: header composition and the verb wrappers *)
Module Client.
Import Js Headers.

(** The two value-or-factory fields of [AlvysClientOptions] that the
    wrappers read.  ([baseUrl], [fetch] and the serializers only reach
    [initClient].) *)
Record AlvysClientOptions := {
  accessToken : ValueOrFactory (option string);
  defaultHeaders : ValueOrFactory (option HeaderInput)
}.

(** How often each factory has been invoked so far. *)
Record Calls := {
  defaultHeadersCalls : nat;
  accessTokenCalls : nat
}.

(** Asynchronous code over the invocation counts: a state and error
    monad; [x ← m; k] reads [const x = await m; k]. *)
Definition M (A : Type) : Type := Calls -> Outcome A * Calls.

Definition ret {A : Type} (a : A) : M A := fun c => (Fulfilled a, c).

Definition throw {A : Type} (e : Error) : M A := fun c => (Rejected e, c).

Definition bind {A B : Type} (m : M A) (k : A -> M B) : M B :=
  fun c =>
    match m c with
    | (Fulfilled a, c') => k a c'
    | (Rejected e, c') => (Rejected e, c')
    end.

#[global] Instance M_ret : MRet M := @ret.
#[global] Instance M_bind : MBind M := fun A B k m => bind m k.

Definition resolveDefaultHeaders (options : AlvysClientOptions) : M (option HeaderInput) :=
  fun c =>
    let '(r, n) := resolveValue (defaultHeaders options) (defaultHeadersCalls c) in
    (r, {| defaultHeadersCalls := n; accessTokenCalls := accessTokenCalls c |}).

Definition resolveAccessToken (options : AlvysClientOptions) : M (option string) :=
  fun c =>
    let '(r, n) := resolveValue (accessToken options) (accessTokenCalls c) in
    (r, {| defaultHeadersCalls := defaultHeadersCalls c; accessTokenCalls := n |}).

(** The [Authorization] step of [buildHeaders]. *)
Definition setAuthorization (headers : Headers) (token : option string) : Headers :=
  match nonEmpty token with
  | Some token =>
      set headers "Authorization"
        (if startsWith token "Bearer " then token else "Bearer " +:+ token)
  | None => headers
  end.

Definition buildHeaders (options : AlvysClientOptions)
    (requestHeaders : option HeaderInput) : M (option (list (string * HeaderValue))) :=
  let headers : Headers := ∅ in
  defaults ← resolveDefaultHeaders options;
  let headers := mergeIntoHeaders headers defaults in
  token ← resolveAccessToken options;
  let headers := setAuthorization headers token in
  let headers := mergeIntoHeaders headers requestHeaders in
  let hasHeaders := forEach headers (fun _ _ _ => true) false in
  mret (if hasHeaders then Some (headersToObject headers) else None).

(** The [headers] property of an option bag: missing, present and
    [undefined], or present with a value. *)
Inductive HeadersField :=
| Absent
| Undefined
| Given (h : HeaderInput).

(** An option bag: its [headers] property and every other property (the
    values of the others are opaque to the wrapper). *)
Record OptionBag := {
  headers : HeadersField;
  others : gmap string string
}.

(** [options?.headers]. *)
Definition headersOf (options : option OptionBag) : option HeaderInput :=
  match options with
  | Some o => match headers o with Given h => Some h | _ => None end
  | None => None
  end.

(** [{ ...(options ?? {}), headers }]. *)
Definition withHeaders (options : option OptionBag)
    (headers : list (string * HeaderValue)) : OptionBag :=
  {| headers := Given (HIObject headers);
     others := match options with Some o => others o | None => ∅ end |}.

Section Wrap.
Context {Url Result : Type}.
Variable options : AlvysClientOptions.
(** [rawClient[method]]; [fn url None] stands for the call [fn(url)]. *)
Variable fn : Url -> option OptionBag -> Result.

(** The function returned by [wrap(method)].  [args] is [None] for a
    call without arguments, otherwise the endpoint and the option bag
    ([None] when the second argument is [undefined] or missing). *)
Definition wrap (args : option (Url * option OptionBag)) : M Result :=
  match args with
  | None => throw (MkError "An endpoint URL is required.")
  | Some (url, bag) =>
      headers ← buildHeaders options (headersOf bag);
      match headers with
      | Some headers => mret (fn url (Some (withHeaders bag headers)))
      | None =>
          match bag with
          | None => mret (fn url None)
          | Some _ => mret (fn url bag)
          end
      end
  end.
End Wrap.

(** An executor that returns the arguments it was called with. *)
Definition recorder (url : string) (bag : option OptionBag) : string * option OptionBag :=
  (url, bag).

(** The delegated call carries no [headers] property: either no option bag
    at all, or a bag without that property. *)
Definition noHeadersField (call : string * option OptionBag) : Prop :=
  match call.2 with
  | None => True
  | Some bag => headers bag = Absent
  end.

End Client.

(** ** [createAlvysAccessTokenProvider]

    The provider runs on an event loop: every [await] is a point where other
    callers, the transport or the clock may act.  The embedding is a state
    machine whose events are those resumptions; the code between two
    suspension points runs in one step. *)
Module Provider.
Import Js.

Definition AUTH_TOKEN_URL : string := "https://auth.alvys.com/oauth/token".
Definition PUBLIC_API_AUDIENCE : string := "https://api.alvys.com/public/".
Definition TOKEN_DEFAULT_EXPIRES_IN_SECONDS : Z := 60 * 60.
Definition TOKEN_EXPIRATION_BUFFER_MS : Z := 60000.

Record TokenCacheEntry := {
  token : string;
  expiresAt : Z
}.

(** The [expires_in] member of the parsed body: missing, a number (an
    integer number of seconds here), or a value of another type. *)
Inductive ExpiresIn :=
| EAbsent
| ENumber (n : Z)
| EOther.

(** [TokenEndpointResponse]; [token_type] and [scope] are never read. *)
Record TokenEndpointResponse := {
  access_token : option string;
  expires_in : ExpiresIn
}.

(** What the code reads of a fetch [Response]; [text] and [json] are the
    outcomes of [response.text()] and [response.json()]. *)
Record Response := {
  status : Z;
  statusText : string;
  text : Outcome string;
  json : Outcome TokenEndpointResponse
}.

(** [response.ok], which the Fetch standard defines as a status in
    200..299. *)
Definition ok (r : Response) : bool := (200 <=? status r) && (status r <=? 299).

(** [CreateAlvysAccessTokenProviderOptions].  A fetch function is named by
    a number, so that two transports can be told apart. *)
Module Opts.
Inductive Scope :=
| ScopeString (s : string)
| ScopeArray (l : list string).

Record t := {
  clientId : ValueOrFactory (option string);
  clientSecret : ValueOrFactory (option string);
  audience : option string;
  scope : option Scope;
  fetch : option nat;
  fallbackToken : ValueOrFactory (option string);
  expirationBufferMs : option Z
}.
End Opts.

(** What lies outside the provider and may change under it: the options
    object it was given (held by reference), [process.env] ([None] when
    there is no [process]) and [globalThis.fetch]. *)
Record World := {
  options : Opts.t;
  env : option (gmap string string);
  globalFetch : option nat
}.

Definition getEnv (w : World) (key : string) : option string :=
  match env w with
  | None => None
  | Some e => e !! key
  end.

(** The constants bound when [createAlvysAccessTokenProvider] runs. *)
Record Closure := {
  fetchImpl : option nat;
  audience : string;
  scope : option string;
  expirationBufferMs : Z
}.

Definition create (w : World) : Closure :=
  {| fetchImpl := nullish (Opts.fetch (options w)) (globalFetch w);
     audience := default PUBLIC_API_AUDIENCE (Opts.audience (options w));
     scope :=
       match Opts.scope (options w) with
       | Some (Opts.ScopeArray l) => Some (String.concat " " l)
       | Some (Opts.ScopeString s) => Some s
       | None => None
       end;
     expirationBufferMs :=
       default TOKEN_EXPIRATION_BUFFER_MS (Opts.expirationBufferMs (options w)) |}.

(** One call of [fetchImpl]: the function called ([via]) and its
    arguments; [body] is the payload before [JSON.stringify]. *)
Record Request := {
  via : option nat;
  url : string;
  method : string;
  headers : gmap string string;
  body : gmap string string
}.

(** Invocations of the three factories so far. *)
Record Calls := {
  fallbackTokenCalls : nat;
  clientIdCalls : nat;
  clientSecretCalls : nat
}.

(** An invocation of the returned function: suspended at
    [await resolveFallbackToken()] (holding what [resolveValue] will
    yield), suspended at [await inFlight] (holding the promise it read),
    or settled. *)
Inductive Caller :=
| AwaitFallback (v : Outcome (option string))
| AwaitInFlight (pid : nat)
| Done (r : Outcome string).

(** A call of [requestToken], by its suspension point. *)
Inductive Task :=
| ResolvingCredentials (id secret : Outcome (option string))
| Fetching
| ReadingText (r : Response)
| ReadingJson (r : Response)
| Settled (r : Outcome string).

(** [requestToken().finally(...)]: the task and the promise derived by
    [finally], pending ([None]) until the callback has run. *)
Record Flight := {
  task : Task;
  promise : option (Outcome string)
}.

Record State := {
  world : World;
  now : Z;
  cache : option TokenCacheEntry;
  inFlight : option nat;
  flights : list Flight;
  callers : list Caller;
  requests : list Request;
  calls : Calls
}.

Inductive Event :=
| Invoke                                      (* the returned function is called *)
| FallbackResolved (i : nat)                  (* caller i leaves await resolveFallbackToken() *)
| CredentialsResolved (pid : nat)             (* Promise.all of flight pid settles *)
| FetchSettled (pid : nat) (r : Outcome Response)   (* the transport answers *)
| BodySettled (pid : nat)                     (* response.text() or .json() settles *)
| FinallyRuns (pid : nat)                     (* the finally callback of flight pid *)
| InFlightSettled (i : nat)                   (* caller i leaves await inFlight *)
| ClockAdvances (ms : N)                       (* Date.now() moves on; it never goes back *)
| WorldChanges (w : World).                   (* options, process.env or globalThis.fetch change *)

Definition setCaller (i : nat) (c : Caller) (s : State) : State :=
  {| world := world s; now := now s; cache := cache s; inFlight := inFlight s;
     flights := flights s; callers := <[i := c]> (callers s);
     requests := requests s; calls := calls s |}.

Definition setTask (pid : nat) (t : Task) (s : State) : State :=
  {| world := world s; now := now s; cache := cache s; inFlight := inFlight s;
     flights := <[pid := {| task := t; promise := None |}]> (flights s);
     callers := callers s; requests := requests s; calls := calls s |}.

Section Instance.
(** The closure of one provider instance. *)
Variable c : Closure.

Definition getCachedToken (s : State) : option string :=
  match cache s with
  | Some e => if expiresAt e >? now s then Some (token e) else None
  | None => None
  end.

(** [requestToken] up to its first [await]: the transport check, then
    both credential factories are called. *)
Definition requestToken (s : State) : Task * Calls :=
  match fetchImpl c with
  | None =>
      (Settled (Rejected (MkError
         "A fetch implementation is required to retrieve Alvys access tokens. Provide options.fetch or set a global fetch.")),
       calls s)
  | Some _ =>
      let '(id, n1) :=
        resolveValue (Opts.clientId (options (world s))) (clientIdCalls (calls s)) in
      let '(secret, n2) :=
        resolveValue (Opts.clientSecret (options (world s))) (clientSecretCalls (calls s)) in
      (ResolvingCredentials id secret,
       {| fallbackTokenCalls := fallbackTokenCalls (calls s);
          clientIdCalls := n1; clientSecretCalls := n2 |})
  end.

Definition payload (clientId clientSecret : string) : gmap string string :=
  let payload : gmap string string :=
    <["grant_type" := "client_credentials"]>
      (<["audience" := audience c]>
         (<["client_secret" := clientSecret]> (<["client_id" := clientId]> ∅))) in
  match nonEmpty (scope c) with
  | Some scope => <["scope" := scope]> payload
  | None => payload
  end.

Definition tokenRequest (clientId clientSecret : string) : Request :=
  {| via := fetchImpl c; url := AUTH_TOKEN_URL; method := "POST";
     headers := {[ "content-type" := "application/json" ]};
     body := payload clientId clientSecret |}.

(** From the credentials to the call of [fetchImpl].  When both factories
    reject, [Promise.all] reports the rejection of the first. *)
Definition afterCredentials (w : World) (id secret : Outcome (option string))
  : Task * list Request :=
  match id, secret with
  | Rejected e, _ => (Settled (Rejected e), [])
  | Fulfilled _, Rejected e => (Settled (Rejected e), [])
  | Fulfilled id, Fulfilled secret =>
      let clientId := nullish id (getEnv w "ALVYS_CLIENT_ID") in
      let clientSecret := nullish secret (getEnv w "ALVYS_CLIENT_SECRET") in
      match nonEmpty clientId, nonEmpty clientSecret with
      | Some clientId, Some clientSecret =>
          (Fetching, [tokenRequest clientId clientSecret])
      | _, _ =>
          (Settled (Rejected (MkError
             "Missing Alvys client credentials. Set ALVYS_CLIENT_ID/ALVYS_CLIENT_SECRET or pass clientId/clientSecret to createAlvysAccessTokenProvider().")),
           [])
      end
  end.

Definition afterFetch (r : Outcome Response) : Task :=
  match r with
  | Rejected e => Settled (Rejected e)
  | Fulfilled response => if ok response then ReadingJson response else ReadingText response
  end.

(** The error thrown for a response that is not [ok]. *)
Definition endpointError (response : Response) : Error :=
  let errorText :=
    match text response with
    | Fulfilled t => t
    | Rejected _ => "<no body>"
    end in
  MkError (trim ("Failed to retrieve Alvys access token ("
                 +:+ pretty (status response) +:+ " " +:+ statusText response
                 +:+ "): " +:+ errorText)).

Definition expiresInSeconds (data : TokenEndpointResponse) : Z :=
  match expires_in data with
  | ENumber n => if n >? 0 then n else TOKEN_DEFAULT_EXPIRES_IN_SECONDS
  | _ => TOKEN_DEFAULT_EXPIRES_IN_SECONDS
  end.

Definition ttlMs (data : TokenEndpointResponse) : Z :=
  Z.max 5000 (expiresInSeconds data * 1000 - expirationBufferMs c).

(** From the parsed body to the end of [requestToken]: the outcome and
    the cache it leaves. *)
Definition afterJson (s : State) (r : Outcome TokenEndpointResponse)
  : Outcome string * option TokenCacheEntry :=
  match r with
  | Rejected e => (Rejected e, cache s)
  | Fulfilled data =>
      match nonEmpty (access_token data) with
      | None =>
          (Rejected (MkError "The Alvys token endpoint did not return an access_token."),
           cache s)
      | Some access_token =>
          (Fulfilled access_token,
           Some {| token := access_token; expiresAt := now s + ttlMs data |})
      end
  end.

(** The returned function, from [await resolveFallbackToken()] on. *)
Definition afterFallback (i : nat) (v : Outcome (option string)) (s : State) : State :=
  match v with
  | Rejected e => setCaller i (Done (Rejected e)) s
  | Fulfilled v =>
      match nonEmpty (nullish v (getEnv (world s) "ALVYS_TOKEN")) with
      | Some fallback => setCaller i (Done (Fulfilled fallback)) s
      | None =>
          match nonEmpty (getCachedToken s) with
          | Some cached => setCaller i (Done (Fulfilled cached)) s
          | None =>
              match inFlight s with
              | Some pid => setCaller i (AwaitInFlight pid) s
              | None =>
                  let pid := length (flights s) in
                  let '(t, n) := requestToken s in
                  {| world := world s; now := now s; cache := cache s;
                     inFlight := Some pid;
                     flights := flights s ++ [{| task := t; promise := None |}];
                     callers := <[i := AwaitInFlight pid]> (callers s);
                     requests := requests s; calls := n |}
              end
          end
      end
  end.

Definition step (e : Event) (s : State) : State :=
  match e with
  | Invoke =>
      let '(v, n) :=
        resolveValue (Opts.fallbackToken (options (world s)))
          (fallbackTokenCalls (calls s)) in
      {| world := world s; now := now s; cache := cache s; inFlight := inFlight s;
         flights := flights s; callers := callers s ++ [AwaitFallback v];
         requests := requests s;
         calls := {| fallbackTokenCalls := n;
                     clientIdCalls := clientIdCalls (calls s);
                     clientSecretCalls := clientSecretCalls (calls s) |} |}
  | FallbackResolved i =>
      match callers s !! i with
      | Some (AwaitFallback v) => afterFallback i v s
      | _ => s
      end
  | CredentialsResolved pid =>
      match flights s !! pid with
      | Some {| task := ResolvingCredentials id secret; promise := None |} =>
          let '(t, sent) := afterCredentials (world s) id secret in
          {| world := world s; now := now s; cache := cache s; inFlight := inFlight s;
             flights := <[pid := {| task := t; promise := None |}]> (flights s);
             callers := callers s; requests := requests s ++ sent; calls := calls s |}
      | _ => s
      end
  | FetchSettled pid r =>
      match flights s !! pid with
      | Some {| task := Fetching; promise := None |} => setTask pid (afterFetch r) s
      | _ => s
      end
  | BodySettled pid =>
      match flights s !! pid with
      | Some {| task := ReadingText response; promise := None |} =>
          setTask pid (Settled (Rejected (endpointError response))) s
      | Some {| task := ReadingJson response; promise := None |} =>
          let '(r, cache') := afterJson s (json response) in
          {| world := world s; now := now s; cache := cache'; inFlight := inFlight s;
             flights := <[pid := {| task := Settled r; promise := None |}]> (flights s);
             callers := callers s; requests := requests s; calls := calls s |}
      | _ => s
      end
  | FinallyRuns pid =>
      match flights s !! pid with
      | Some {| task := Settled r; promise := None |} =>
          {| world := world s; now := now s; cache := cache s; inFlight := None;
             flights := <[pid := {| task := Settled r; promise := Some r |}]> (flights s);
             callers := callers s; requests := requests s; calls := calls s |}
      | _ => s
      end
  | InFlightSettled i =>
      match callers s !! i with
      | Some (AwaitInFlight pid) =>
          match flights s !! pid with
          | Some {| promise := Some r |} => setCaller i (Done r) s
          | _ => s
          end
      | _ => s
      end
  | ClockAdvances ms =>
      {| world := world s; now := now s + Z.of_N ms; cache := cache s;
         inFlight := inFlight s; flights := flights s; callers := callers s;
         requests := requests s; calls := calls s |}
  | WorldChanges w =>
      {| world := w; now := now s; cache := cache s; inFlight := inFlight s;
         flights := flights s; callers := callers s; requests := requests s;
         calls := calls s |}
  end.

Definition run (events : list Event) (s : State) : State :=
  foldl (fun s e => step e s) s events.

End Instance.

(** A provider that has just been created, at time [t]. *)
Definition init (w : World) (t : Z) : State :=
  {| world := w; now := t; cache := None; inFlight := None; flights := [];
     callers := []; requests := [];
     calls := {| fallbackTokenCalls := 0; clientIdCalls := 0; clientSecretCalls := 0 |} |}.

(** A flight with a request on the wire: [fetchImpl] has been called and
    the response has not been read to its end. *)
Definition fetching (f : Flight) : bool :=
match task f with
| Fetching | ReadingText _ | ReadingJson _ => true
| _ => false
end.

Definition outstanding (s : State) : nat :=
  length (filter (fun f => fetching f = true) (flights s)).

(** The event is a step of flight [pid]. *)
Definition stepOf (pid : nat) (e : Event) : Prop :=
match e with
| CredentialsResolved p | FetchSettled p _ | BodySettled p | FinallyRuns p => p = pid
| _ => False
end.

(** A flight whose task has settled and whose [finally] callback has run. *)
Definition finished (f : Flight) : Prop :=
  exists r, f = {| task := Settled r; promise := Some r |}.

(** A flight whose task has not settled yet. *)
Definition running (f : Flight) : Prop :=
  match task f with
  | Settled _ => False
  | _ => True
  end.

(** What holds in every state a provider can reach: the only flight that
    may be unfinished is the one [inFlight] refers to; tasks only run with a
    transport; tokens in settled tasks, in the cache and in the hands of
    callers are non-empty; and while the flight [inFlight] refers to has
    not succeeded, the cache holds nothing valid. *)
Record wf (c : Closure) (s : State) : Prop := {
  wf_idle : forall j f, flights s !! j = Some f -> inFlight s <> Some j -> finished f;
  wf_busy : forall pid, inFlight s = Some pid ->
            exists t, flights s !! pid = Some {| task := t; promise := None |};
  wf_transport : forall j f, flights s !! j = Some f -> running f -> fetchImpl c <> None;
  wf_settled : forall j f tok, flights s !! j = Some f ->
               task f = Settled (Fulfilled tok) -> tok <> "";
  wf_cache : forall e, cache s = Some e -> token e <> "" /\ fetchImpl c <> None;
  wf_callers : forall i tok, callers s !! i = Some (Done (Fulfilled tok)) -> tok <> "";
  wf_stale : forall pid t, inFlight s = Some pid ->
             flights s !! pid = Some {| task := t; promise := None |} ->
             (forall tok, t <> Settled (Fulfilled tok)) ->
             nonEmpty (getCachedToken s) = None
}.

(** The states of a provider created in world [w] at time [t]. *)
Definition reachable (w : World) (s : State) : Prop :=
  exists t events, s = run (create w) events (init w t).

End Provider.

(** ** The specification's header composition, in its own words

    Section 4.2: the composed set is what results from writing, in this
    order, the default headers, the [Authorization] header and the
    per-request headers, a later write replacing an earlier one for the same
    name, names compared without regard to case. *)
Module HeaderSpec.
Import Js Headers.

(** The headers a source contributes, in the order it lists them.  A
    header is a name with a value: an entry whose value is [null] or
    [undefined] is no header (the specification does not mention such
    entries). *)
Definition present (kv : string * HeaderValue) : option (string * string) :=
  match kv.2 with
  | HVUndefined | HVNull => None
  | v => Some (kv.1, String_ v)
  end.

Definition written (source : option HeaderInput) : list (string * string) :=
  match source with
  | None => []
  | Some (HIHeaders h) => map_to_list h
  | Some (HIArray entries) => omap present entries
  | Some (HIObject entries) => omap present entries
  end.

(** The [Authorization] write: none without a token, the token itself when
    it already starts with [Bearer ], otherwise the prefixed token. *)
Definition authorization (token : option string) : list (string * string) :=
  match token with
  | None => []
  | Some t =>
      if decide (t = "") then []
      else if startsWith t "Bearer " then [("Authorization", t)]
      else [("Authorization", "Bearer " +:+ t)]
  end.

(** One write into the collection. *)
Definition write (t : Headers) (kv : string * string) : Headers := set t kv.1 kv.2.

(** The value of the last write to [name], case-insensitively. *)
Fixpoint lastWrite (name : string) (writes : list (string * string)) : option string :=
  match writes with
  | [] => None
  | (n, v) :: rest =>
      match lastWrite name rest with
      | Some v' => Some v'
      | None => if decide (lower n = lower name) then Some v else None
      end
  end.

Definition composed (defaults : option HeaderInput) (token : option string)
    (request : option HeaderInput) (name : string) : option string :=
  lastWrite name (written defaults ++ authorization token ++ written request).

End HeaderSpec.

(** ** Concrete inputs used by the examples below *)
Module Scenario.
Import Js Headers Client.

(** A client without default headers and without a token. *)
Definition bareClient : AlvysClientOptions :=
  {| accessToken := Literal None; defaultHeaders := Literal None |}.

(** Section 8, header precedence: defaults [{A: "1"}], a token, and
    per-call headers [{A: "2", Authorization: "X"}]. *)
Definition precedenceClient : AlvysClientOptions :=
  {| accessToken := Factory (fun _ => Fulfilled (Some "secret"));
     defaultHeaders := Literal (Some (HIObject [("A", HVString "1")])) |}.

Definition precedenceHeaders : HeaderInput :=
  HIObject [("A", HVString "2"); ("Authorization", HVString "X")].

Definition noCalls : Client.Calls := {| defaultHeadersCalls := 0; accessTokenCalls := 0 |}.

(** [{ headers: {}, cache: "no-store" }]. *)
Definition emptyHeadersBag : OptionBag :=
  {| headers := Given (HIObject []); others := {[ "cache" := "no-store" ]} |}.

(** [{ headers: { "X-Trace": 7 }, cache: "no-store" }]. *)
Definition traceBag : OptionBag :=
  {| headers := Given (HIObject [("X-Trace", HVNumber 7)]);
     others := {[ "cache" := "no-store" ]} |}.

End Scenario.

(** ** Predicates for the single-flight property (claim C1) *)
Module Coalescing.
Import Js Provider.

(** No fallback token resolves in world [w], whichever call of the factory
    it is. *)
Definition noFallback (w : World) : Prop :=
  forall n, exists v,
    (resolveValue (Opts.fallbackToken (options w)) n).1 = Fulfilled v /\
    nonEmpty (nullish v (getEnv w "ALVYS_TOKEN")) = None.

(** The credentials a refresh started in state [s] resolves. *)
Definition credentials (s : State) (clientId clientSecret : string) : Prop :=
  (exists id,
     (resolveValue (Opts.clientId (options (world s))) (clientIdCalls (calls s))).1
       = Fulfilled id /\
     nonEmpty (nullish id (getEnv (world s) "ALVYS_CLIENT_ID")) = Some clientId) /\
  (exists secret,
     (resolveValue (Opts.clientSecret (options (world s))) (clientSecretCalls (calls s))).1
       = Fulfilled secret /\
     nonEmpty (nullish secret (getEnv (world s) "ALVYS_CLIENT_SECRET")) = Some clientSecret).

(** No invocation is pending. *)
Definition quiet (s : State) : Prop :=
  inFlight s = None /\ forall cl, cl ∈ callers s -> exists r, cl = Done r.

(** Events while the callers arrive: anything but an answer of the
    transport or a change of the world. *)
Definition arrival (e : Event) : Prop :=
  match e with
  | FetchSettled _ _ | WorldChanges _ => False
  | _ => True
  end.

(** Events once every caller is past its fallback step: no new caller,
    no change of the world, and the transport answers [answer]. *)
Definition completion (answer : Outcome Response) (e : Event) : Prop :=
  match e with
  | Invoke | FallbackResolved _ | WorldChanges _ => False
  | FetchSettled _ r => r = answer
  | _ => True
  end.

(** What the outcome of a refresh must be when the endpoint answered
    [answer]: the access token of a well-formed 2xx answer. *)
Definition answers (answer : Outcome Response) (r : Outcome string) : Prop :=
  forall resp data tok,
    answer = Fulfilled resp -> ok resp = true -> json resp = Fulfilled data ->
    access_token data = Some tok -> tok <> "" -> r = Fulfilled tok.

Section Invariant.
Variable c : Closure.
Variable s0 : State.
Variables clientId clientSecret : string.
Variable answer : Outcome Response.

(** The refresh the burst shares gets the next free index. *)
Definition shared : nat := length (flights s0).

Definition waits (cl : Caller) : Prop :=
  exists v, cl = AwaitFallback (Fulfilled v) /\
            nonEmpty (nullish v (getEnv (world s0) "ALVYS_TOKEN")) = None.

Definition okCaller (s : State) (cl : Caller) : Prop :=
  waits cl \/
  cl = AwaitInFlight shared \/
  exists r, cl = Done r /\
            flights s !! shared = Some {| task := Settled r; promise := Some r |}.

Definition sent (s : State) : Prop :=
  requests s = requests s0 ++ [tokenRequest c clientId clientSecret].

Definition okFlight (late : Prop) (s : State) (fl : Flight) : Prop :=
  match fl with
  | {| task := ResolvingCredentials (Fulfilled id) (Fulfilled secret); promise := None |} =>
      nonEmpty (nullish id (getEnv (world s0) "ALVYS_CLIENT_ID")) = Some clientId /\
      nonEmpty (nullish secret (getEnv (world s0) "ALVYS_CLIENT_SECRET")) = Some clientSecret /\
      inFlight s = Some shared /\ requests s = requests s0 /\ cache s = cache s0
  | {| task := Fetching; promise := None |} =>
      inFlight s = Some shared /\ sent s /\ cache s = cache s0
  | {| task := ReadingText resp; promise := None |} =>
      late /\ answer = Fulfilled resp /\ ok resp = false /\
      inFlight s = Some shared /\ sent s
  | {| task := ReadingJson resp; promise := None |} =>
      late /\ answer = Fulfilled resp /\ ok resp = true /\
      inFlight s = Some shared /\ sent s
  | {| task := Settled r; promise := None |} =>
      late /\ answers answer r /\ inFlight s = Some shared /\ sent s
  | {| task := Settled r; promise := Some r' |} =>
      late /\ r' = r /\ answers answer r /\ inFlight s = None /\ sent s
  | _ => False
  end.

Record inv (late : Prop) (s : State) : Prop := {
  inv_world : world s = world s0;
  inv_now : now s0 <= now s;
  inv_callers : exists cs, callers s = callers s0 ++ cs /\ Forall (okCaller s) cs;
  inv_flights :
    (flights s = flights s0 /\ inFlight s = None /\ requests s = requests s0 /\
     cache s = cache s0 /\
     clientIdCalls (calls s) = clientIdCalls (calls s0) /\
     clientSecretCalls (calls s) = clientSecretCalls (calls s0)) \/
    (exists fl, flights s = flights s0 ++ [fl] /\ okFlight late s fl)
}.
End Invariant.
End Coalescing.

(** ** The time-to-live as claim C4 words it

    [max(5000, expires_in * 1000 - buffer)] when the response supplies
    [expires_in], with 3600 seconds in its place when the response omits it.
    (The claim says nothing of a member that is not a number.) *)
Module TtlSpec.
Import Provider.

Definition claimedTtl (e : ExpiresIn) (buffer : Z) : option Z :=
  match e with
  | ENumber n => Some (Z.max 5000 (n * 1000 - buffer))
  | EAbsent => Some (Z.max 5000 (3600 * 1000 - buffer))
  | EOther => None
  end.

End TtlSpec.

(** ** Concrete providers, responses and schedules used by the examples *)
Module ProviderScenario.
Import Js Provider.

(** Literal client credentials, an injected transport, nothing else. *)
Definition literalOptions : Opts.t :=
  {| Opts.clientId := Literal (Some "client-1");
     Opts.clientSecret := Literal (Some "s3cret");
     Opts.audience := None;
     Opts.scope := None;
     Opts.fetch := Some 1%nat;
     Opts.fallbackToken := Literal None;
     Opts.expirationBufferMs := None |}.

Definition literalWorld : World :=
  {| options := literalOptions; env := None; globalFetch := None |}.

(** A 200 response carrying [tok] and the given [expires_in]. *)
Definition tokenResponse (tok : string) (e : ExpiresIn) : Response :=
  {| status := 200; statusText := "OK";
     text := Fulfilled "{...}";
     json := Fulfilled {| access_token := Some tok; expires_in := e |} |}.

(** A 503 response with a body ending in a line break. *)
Definition unavailable : Response :=
  {| status := 503; statusText := "Service Unavailable";
     text := Fulfilled ("upstream down" +:+ String (ascii_of_nat 10) EmptyString);
     json := Rejected (MkError "Unexpected token u in JSON") |}.

(** The same options after the caller has pointed [audience], [scope],
    [expirationBufferMs] and [fetch] elsewhere. *)
Definition redirectedWorld : World :=
  {| options :=
       {| Opts.clientId := Literal (Some "client-1");
          Opts.clientSecret := Literal (Some "s3cret");
          Opts.audience := Some "https://api.example.test/";
          Opts.scope := Some (Opts.ScopeArray ["read"; "write"]);
          Opts.fetch := Some 2%nat;
          Opts.fallbackToken := Literal None;
          Opts.expirationBufferMs := Some 0 |};
     env := None; globalFetch := None |}.

(** Credentials from factories; the secret is only available to the first
    call of its factory. *)
Definition vaultWorld : World :=
  {| options :=
       {| Opts.clientId := Factory (fun _ => Fulfilled (Some "client-1"));
          Opts.clientSecret :=
            Factory (fun n => Fulfilled (match n with O => Some "s3cret" | S _ => None end));
          Opts.audience := None;
          Opts.scope := None;
          Opts.fetch := Some 1%nat;
          Opts.fallbackToken := Literal None;
          Opts.expirationBufferMs := None |};
     env := None; globalFetch := None |}.

(** No client credentials anywhere, only a transport. *)
Definition anonymousWorld : World :=
  {| options :=
       {| Opts.clientId := Literal None;
          Opts.clientSecret := Literal None;
          Opts.audience := None;
          Opts.scope := None;
          Opts.fetch := None;
          Opts.fallbackToken := Literal None;
          Opts.expirationBufferMs := None |};
     env := Some ∅; globalFetch := Some 7%nat |}.

(** A manually issued token in [ALVYS_TOKEN] next to client credentials. *)
Definition manualWorld : World :=
  {| options := literalOptions;
     env := Some {[ "ALVYS_TOKEN" := "manual-token" ]};
     globalFetch := None |}.

(** One invocation (caller [i]) that starts flight [pid] and runs alone to
    the end, the endpoint answering [r]. *)
Definition oneCall (i pid : nat) (r : Outcome Response) : list Event :=
  [Invoke; FallbackResolved i; CredentialsResolved pid; FetchSettled pid r;
   BodySettled pid; FinallyRuns pid; InFlightSettled i].

(** Three invocations made together: all three have passed their fallback
    step, and the first has started the refresh, before the endpoint
    answers. *)
Definition burstArrives : list Event :=
  [Invoke; Invoke; Invoke; FallbackResolved 0; FallbackResolved 1;
   CredentialsResolved 0; ClockAdvances 20; FallbackResolved 2].

Definition burstCompletes (r : Outcome Response) : list Event :=
  [FetchSettled 0 r; BodySettled 0; FinallyRuns 0;
   InFlightSettled 2; InFlightSettled 0; InFlightSettled 1].

(** Two invocations made together on a provider without credentials. *)
Definition anonymousBurst : list Event :=
  [Invoke; Invoke; FallbackResolved 0; FallbackResolved 1; CredentialsResolved 0;
   FinallyRuns 0; InFlightSettled 0; InFlightSettled 1].

End ProviderScenario.

(** ** Well-formed header collections *)
Module HeadersInv.
Import Js Headers.

(** Every name stored in the collection is in lower case, as in any
    [Headers] object. *)
Definition lowercase (h : Headers) : Prop :=
  forall k, is_Some (h !! k) -> lower k = k.

(** The entry carries no value. *)
Definition blank (kv : string * HeaderValue) : Prop :=
  kv.2 = HVNull \/ kv.2 = HVUndefined.

End HeadersInv.

(** ** [createAlvysClient]: construction and the returned client *)
Module ClientFactory.
Import Js Headers Client.

Definition DEFAULT_BASE_URL : string := "https://integrations.alvys.com".

(** The keys of the raw client that the returned client wraps. *)
Inductive Method := GET | PUT | POST | PATCH | DELETE | OPTIONS | HEAD.

(** [1] for a factory, [0] for a value. *)
Definition invocations {T : Type} (value : ValueOrFactory T) : nat :=
  match value with Factory _ => 1 | Literal _ => 0 end.

Section Create.
(** Functions the code only passes on: fetch implementations, serializers,
    and what a raw verb returns. *)
Context {Fetch Serializer Result : Type}.

(** All of [AlvysClientOptions]: the fields [createAlvysClient] reads
    itself, and the two that [buildHeaders] reads. *)
Record CreateOptions := {
  baseUrl : option string;
  fetch : option Fetch;
  querySerializer : option Serializer;
  bodySerializer : option Serializer;
  headerOptions : AlvysClientOptions
}.

(** The default parameter value [{}]. *)
Definition noOptions : CreateOptions :=
  {| baseUrl := None; fetch := None; querySerializer := None; bodySerializer := None;
     headerOptions := {| accessToken := Literal None; defaultHeaders := Literal None |} |}.

(** The argument of [initClient]. *)
Record ClientOptions := {
  co_baseUrl : string;
  co_fetch : Fetch;
  co_querySerializer : option Serializer;
  co_bodySerializer : option Serializer
}.

Definition RawClient : Type := Method -> string -> option OptionBag -> Result.

(** [initClient] of openapi-fetch. *)
Variable initClient : ClientOptions -> RawClient.

(** The returned object; [verb client m] is its property [m]. *)
Record AlvysClient := {
  client_baseUrl : string;
  client_fetch : Fetch;
  raw : RawClient;
  verb : Method -> option (string * option OptionBag) -> M Result
}.

(** [createAlvysClient(options)]; [globalFetch] is [globalThis.fetch] when
    it is a function.  The error is thrown synchronously. *)
Definition createAlvysClient (globalFetch : option Fetch) (options : option CreateOptions)
  : Error + AlvysClient :=
  let options := default noOptions options in
  let baseUrl := default DEFAULT_BASE_URL (baseUrl options) in
  match nullish (fetch options) globalFetch with
  | None =>
      inl (MkError "A fetch implementation is required. Install something like `undici` and pass it via options.fetch when using Node.js < 18.")
  | Some fetchImpl =>
      let rawClient :=
        initClient {| co_baseUrl := baseUrl; co_fetch := fetchImpl;
                      co_querySerializer := querySerializer options;
                      co_bodySerializer := bodySerializer options |} in
      inr {| client_baseUrl := baseUrl; client_fetch := fetchImpl; raw := rawClient;
             verb := fun method => wrap (headerOptions options) (rawClient method) |}
  end.
End Create.

(** A raw client that returns what it was called with. *)
Definition echo (config : @ClientOptions nat nat) (method : Method) (url : string)
    (bag : option OptionBag) :=
  (config, method, url, bag).

End ClientFactory.

(** ** The provider over its whole life: counting and summary functions *)
Module Lifecycle.
Import Js Provider.

(** How many elements satisfy [p]. *)
Fixpoint count {A : Type} (p : A -> bool) (l : list A) : nat :=
  match l with
  | [] => 0
  | x :: rest => ((if p x then 1 else 0) + count p rest)%nat
  end.

(** A refresh still at [Promise.all]: it has not reached [fetchImpl]. *)
Definition resolving (f : Flight) : bool :=
  match task f with
  | ResolvingCredentials _ _ => true
  | _ => false
  end.

(** An invocation that has passed [await resolveFallbackToken()]. *)
Definition passed (cl : Caller) : bool :=
  match cl with
  | AwaitFallback _ => false
  | _ => true
  end.

(** The error of [requestToken] without a transport. *)
Definition fetchRequired : Error :=
  MkError "A fetch implementation is required to retrieve Alvys access tokens. Provide options.fetch or set a global fetch.".

(** The error of [requestToken] without credentials. *)
Definition missingCredentials : Error :=
  MkError "Missing Alvys client credentials. Set ALVYS_CLIENT_ID/ALVYS_CLIENT_SECRET or pass clientId/clientSecret to createAlvysAccessTokenProvider().".

(** The members a request body may have. *)
Definition payloadKeys : list string :=
  ["client_id"; "client_secret"; "audience"; "grant_type"; "scope"].

(** The counting invariant behind the bounds: requests are matched by
    refreshes past their credentials, refreshes by invocations past their
    fallback step. *)
Definition bounded (s : State) : Prop :=
  (length (requests s) + count resolving (flights s) <= length (flights s))%nat /\
  (length (flights s) <= count passed (callers s))%nat /\
  (clientIdCalls (calls s) <= length (flights s))%nat /\
  (clientSecretCalls (calls s) <= length (flights s))%nat /\
  (fallbackTokenCalls (calls s) <= length (callers s))%nat.

(** Without a transport nothing gets past the first line of
    [requestToken]. *)
Definition grounded (s : State) : Prop :=
  requests s = [] /\ cache s = None /\
  clientIdCalls (calls s) = 0%nat /\ clientSecretCalls (calls s) = 0%nat /\
  forall j f, flights s !! j = Some f -> task f = Settled (Rejected fetchRequired).

(** A world whose fallback token is a fixed non-empty string: given in
    the options, or left out there and set in the environment. *)
Definition staticFallback (w : World) (tok : string) : Prop :=
  tok <> "" /\
  (Opts.fallbackToken (options w) = Literal (Some tok) \/
   Opts.fallbackToken (options w) = Literal None /\ getEnv w "ALVYS_TOKEN" = Some tok).

(** Any event but a change of the world. *)
Definition unchanging (e : Event) : Prop :=
  match e with
  | WorldChanges _ => False
  | _ => True
  end.

(** What holds of such a provider throughout: it has done nothing but
    answer with the fallback token. *)
Definition served (w : World) (tok : string) (s : State) : Prop :=
  world s = w /\ flights s = [] /\ requests s = [] /\ cache s = None /\ inFlight s = None /\
  calls s = {| fallbackTokenCalls := 0; clientIdCalls := 0; clientSecretCalls := 0 |} /\
  forall i cl, callers s !! i = Some cl ->
    (exists v, cl = AwaitFallback (Fulfilled v) /\
               nonEmpty (nullish v (getEnv w "ALVYS_TOKEN")) = Some tok) \/
    cl = Done (Fulfilled tok).

(** The time that passes during a run. *)
Definition elapsed (events : list Event) : Z :=
  foldr (fun e t => match e with ClockAdvances ms => Z.of_N ms + t | _ => t end) 0 events.

(** The outcome of [requestToken] once the transport has answered. *)
Definition refreshOutcome (answer : Outcome Response) : Outcome string :=
  match answer with
  | Rejected e => Rejected e
  | Fulfilled response =>
      if ok response then
        match json response with
        | Rejected e => Rejected e
        | Fulfilled data =>
            match nonEmpty (access_token data) with
            | Some access_token => Fulfilled access_token
            | None =>
                Rejected (MkError "The Alvys token endpoint did not return an access_token.")
            end
        end
      else Rejected (endpointError response)
  end.

End Lifecycle.

(** ** Concrete inputs for the properties beyond the specification *)
Module Situations.
Import Js Headers Client Provider ProviderScenario.

Definition acceptHeaders : Headers := {[ "accept" := "application/json" ]}.

Definition traceTarget : Headers := {[ "x-trace" := "7" ]}.

(** [{ "X-Trace": "abc" }] as per-request headers. *)
Definition traceHeaders : HeaderInput := HIObject [("X-Trace", HVString "abc")].

(** Both options are factories; only the token factory yields a value. *)
Definition tokenClient : AlvysClientOptions :=
  {| accessToken := Factory (fun _ => Fulfilled (Some "secret"));
     defaultHeaders := Factory (fun _ => Fulfilled None) |}.

(** Client credentials but no transport, neither injected nor global. *)
Definition offlineWorld : World :=
  {| options :=
       {| Opts.clientId := Literal (Some "client-1");
          Opts.clientSecret := Literal (Some "s3cret");
          Opts.audience := None;
          Opts.scope := None;
          Opts.fetch := None;
          Opts.fallbackToken := Literal None;
          Opts.expirationBufferMs := None |};
     env := None; globalFetch := None |}.

(** [fallbackToken: ''] next to a token in [ALVYS_TOKEN]. *)
Definition blankFallbackWorld : World :=
  {| options :=
       {| Opts.clientId := Literal (Some "client-1");
          Opts.clientSecret := Literal (Some "s3cret");
          Opts.audience := None;
          Opts.scope := None;
          Opts.fetch := Some 1%nat;
          Opts.fallbackToken := Literal (Some "");
          Opts.expirationBufferMs := None |};
     env := Some {[ "ALVYS_TOKEN" := "manual-token" ]};
     globalFetch := None |}.

End Situations.

(** * Part II: properties *)

(** ** Header composition *)
Section HeaderFacts.
Import Js Headers Client HeaderSpec.

Lemma foldl_write_lookup (writes : list (string * string)) (t : Headers) (name : string) :
  foldl write t writes !! lower name =
  match lastWrite name writes with
  | Some v => Some v
  | None => t !! lower name
  end.
Proof.
  revert t. induction writes as [|[n v] rest IH]; intros t; simpl; [done|].
  rewrite IH. destruct (lastWrite name rest); [done|].
  unfold write, set; simpl. rewrite lookup_insert.
  repeat case_decide; congruence.
Qed.

Lemma foldl_setEntry (entries : list (string * HeaderValue)) (t : Headers) :
  foldl setEntry t entries = foldl write t (omap present entries).
Proof.
  revert t. induction entries as [|[k v] rest IH]; intros t; simpl; [done|].
  rewrite IH. unfold setEntry, present; simpl. by destruct v.
Qed.

Lemma mergeIntoHeaders_written (t : Headers) (source : option HeaderInput) :
  mergeIntoHeaders t source = foldl write t (written source).
Proof.
  destruct source as [[h|l|l]|]; simpl; auto using foldl_setEntry.
Qed.

Lemma setAuthorization_written (t : Headers) (token : option string) :
  setAuthorization t token = foldl write t (authorization token).
Proof.
  unfold setAuthorization, authorization, nonEmpty.
  destruct token as [tok|]; [|done].
  destruct (String.eqb_spec tok ""); case_decide; try congruence; [done|].
  by destruct (startsWith tok "Bearer ").
Qed.

Lemma lastWrite_nil_iff (writes : list (string * string)) :
  (forall name, lastWrite name writes = None) <-> writes = [].
Proof.
  split; [|by intros ->].
  destruct writes as [|[n v] rest]; [done|]. intros H. specialize (H n). simpl in H.
  destruct (lastWrite n rest); [done|]. by case_decide.
Qed.

Lemma forEach_any (h : Headers) :
  forEach h (fun _ _ _ => true) false = bool_decide (h <> ∅).
Proof.
  unfold forEach. destruct (map_to_list h) as [|kv l] eqn:E.
  - apply map_to_list_empty_iff in E. subst. simpl. by rewrite bool_decide_eq_false_2; auto.
  - rewrite bool_decide_eq_true_2.
    + simpl. clear E. induction l; simpl; auto.
    + intros ->. by rewrite map_to_list_empty in E.
Qed.

Lemma headersToObject_map (h : Headers) :
  headersToObject h = (fun kv => (kv.1, HVString kv.2)) <$> map_to_list h.
Proof.
  unfold headersToObject, forEach.
  assert (G : forall l acc, foldl (fun (acc : list (string * HeaderValue)) (kv : string * string) =>
               acc ++ [(kv.1, HVString kv.2)]) acc l
             = acc ++ ((fun kv => (kv.1, HVString kv.2)) <$> l)).
  { induction l as [|x l IH]; intros acc; simpl; [by rewrite app_nil_r|].
    rewrite IH, <- app_assoc. done. }
  apply (G _ []).
Qed.

Lemma prop_headersToObject (h : Headers) (key : string) :
  prop (headersToObject h) key = HVString <$> h !! key.
Proof.
  rewrite headersToObject_map.
  pose proof (NoDup_fst_map_to_list h) as ND.
  assert (E : forall v, h !! key = Some v <-> (key, v) ∈ map_to_list h)
    by (intros; symmetry; apply elem_of_map_to_list).
  revert ND E. generalize (map_to_list h) as l. intros l.
  revert h. induction l as [|[k v] l IH]; intros h ND E; rewrite ?fmap_cons; cbn [prop fst snd].
  - destruct (h !! key) as [v|] eqn:Hk; [|done].
    destruct (E v) as [E1 _]. specialize (E1 eq_refl). by apply elem_of_nil in E1.
  - inversion ND as [|? ? Hnin ND']; subst.
    destruct (String.eqb_spec k key) as [->|Hne].
    + assert (h !! key = Some v) as -> by (apply E; left). done.
    + rewrite (IH (delete k h)); [|done|].
      * by rewrite lookup_delete_ne.
      * intros w. rewrite lookup_delete_ne by done. rewrite E.
        rewrite elem_of_cons. split; [|tauto]. intros [[=]|]; [congruence|done].
Qed.

Lemma lower_ascii_idemp (c : ascii) : lower_ascii (lower_ascii c) = lower_ascii c.
Proof. by destruct c as [[] [] [] [] [] [] [] []]. Qed.

Lemma lower_idemp (s : string) : lower (lower s) = lower s.
Proof. induction s as [|c s IH]; simpl; [done|]. by rewrite lower_ascii_idemp, IH. Qed.

Lemma foldl_write_keys (writes : list (string * string)) (t : Headers) (key : string) :
  is_Some (foldl write t writes !! key) -> is_Some (t !! key) \/ lower key = key.
Proof.
  revert t. induction writes as [|[n v] rest IH]; intros t; simpl; [auto|].
  intros H. apply IH in H as [H|H]; [|by right].
  unfold write, set in H; simpl in H. rewrite lookup_insert in H.
  case_decide; [right; subst; apply lower_idemp | by left].
Qed.

Lemma buildHeaders_run (options : AlvysClientOptions) (requestHeaders : option HeaderInput)
    (c c1 c2 : Calls) (defaults : option HeaderInput) (token : option string) :
  resolveDefaultHeaders options c = (Fulfilled defaults, c1) ->
  resolveAccessToken options c1 = (Fulfilled token, c2) ->
  let h := foldl write ∅ (written defaults ++ authorization token ++ written requestHeaders) in
  buildHeaders options requestHeaders c =
    (Fulfilled (if bool_decide (h <> ∅) then Some (headersToObject h) else None), c2).
Proof.
  intros H1 H2 h. unfold buildHeaders, mbind, M_bind, bind, mret, M_ret, ret.
  rewrite H1, H2, forEach_any.
  rewrite !mergeIntoHeaders_written, setAuthorization_written. subst h.
  by rewrite !foldl_app.
Qed.

End HeaderFacts.

Section ClientSpec.
Import Js Headers Client HeaderSpec.



(** Section 8, header precedence: the caller's [A] and [Authorization]
    replace the default and the automatic one (names are stored in lower
    case). *)
Example header_precedence :
  exists o,
    (buildHeaders Scenario.precedenceClient (Some Scenario.precedenceHeaders)
       Scenario.noCalls).1 = Fulfilled (Some o) /\
    o ≡ₚ [("a", HVString "2"); ("authorization", HVString "X")].
Proof. eexists. split; [vm_compute; reflexivity|]. apply Permutation_swap. Qed.

(** Section 8, no double prefix. *)
Example no_double_prefix :
  composed None (Some "Bearer abc") None "authorization" = Some "Bearer abc" /\
  composed None (Some "abc") None "AUTHORIZATION" = Some "Bearer abc" /\
  composed None (Some "") None "Authorization" = None.
Proof. vm_compute. auto. Qed.




(** Section 8, empty headers omitted, and the two delegation cases on
    concrete calls: no options at all, a bag that composes no header, a
    bag that composes one. *)
Example wrap_examples :
  (wrap Scenario.bareClient recorder (Some ("/api/p/v1/trucks", None)) Scenario.noCalls).1
    = Fulfilled ("/api/p/v1/trucks", None) /\
  (wrap Scenario.bareClient recorder (Some ("/api/p/v1/trucks", Some Scenario.emptyHeadersBag))
     Scenario.noCalls).1
    = Fulfilled ("/api/p/v1/trucks", Some Scenario.emptyHeadersBag) /\
  (wrap Scenario.bareClient recorder (Some ("/api/p/v1/trucks", Some Scenario.traceBag))
     Scenario.noCalls).1
    = Fulfilled ("/api/p/v1/trucks",
                 Some {| headers := Given (HIObject [("x-trace", HVString "7")]);
                         others := {[ "cache" := "no-store" ]} |}) /\
  (wrap Scenario.bareClient recorder None Scenario.noCalls).1
    = Rejected (MkError "An endpoint URL is required.").
Proof. vm_compute. auto. Qed.

End ClientSpec.

(** ** The token provider: invariants *)
Section ProviderInvariants.
Import Js Provider.

Variable c : Closure.

Lemma nonEmpty_Some (v : option string) (t : string) :
  nonEmpty v = Some t <-> v = Some t /\ t <> "".
Proof.
  unfold nonEmpty. destruct v as [u|]; [|by split; [|intros []]].
  destruct (String.eqb_spec u ""); split.
  - done.
  - intros [[= ->] ?]. done.
  - intros [= ->]. done.
  - intros [[= ->] ?]. done.
Qed.

Lemma run_app (xs ys : list Event) (s : State) :
  run c (xs ++ ys) s = run c ys (run c xs s).
Proof. apply foldl_app. Qed.

Lemma wf_init (w : World) (t : Z) : wf c (init w t).
Proof. split; simpl; intros; by try done. Qed.

Lemma getCachedToken_clock s ms :
  nonEmpty (getCachedToken s) = None ->
  nonEmpty (getCachedToken {| world := world s; now := now s + Z.of_N ms; cache := cache s;
           inFlight := inFlight s; flights := flights s; callers := callers s;
           requests := requests s; calls := calls s |}) = None.
Proof.
  unfold getCachedToken; simpl. destruct (cache s) as [e|]; [|done].
  destruct (Z.gtb_spec (expiresAt e) (now s)); destruct (Z.gtb_spec (expiresAt e) (now s + Z.of_N ms)); try done; lia.
Qed.

Lemma wf_setCaller s i cl :
  wf c s -> (forall tok, cl = Done (Fulfilled tok) -> tok <> "") -> wf c (setCaller i cl s).
Proof.
  intros [] H. split; simpl; try done.
  intros j tok Hj. destruct (decide (i = j)) as [->|Hne].
  - apply list_lookup_insert_Some in Hj as [[_ [-> _]]|[? ?]]; [by apply H|done].
  - rewrite list_lookup_insert_ne in Hj by done. eauto.
Qed.

(** The flight [inFlight] points to is the only one with a pending promise. *)
Lemma wf_pending s pid t :
  wf c s -> flights s !! pid = Some {| task := t; promise := None |} -> inFlight s = Some pid.
Proof.
  intros W H. destruct (decide (inFlight s = Some pid)) as [|Hne]; [done|].
  destruct (wf_idle c s W _ _ H Hne) as [r [=]].
Qed.

Lemma wf_progress s pid t t' cache' reqs :
  wf c s ->
  flights s !! pid = Some {| task := t; promise := None |} ->
  running {| task := t; promise := None |} ->
  (cache' = cache s /\ (forall tok, t' <> Settled (Fulfilled tok)) \/
   exists tok x, t' = Settled (Fulfilled tok) /\ tok <> "" /\
                 cache' = Some {| token := tok; expiresAt := x |}) ->
  wf c {| world := world s; now := now s; cache := cache'; inFlight := inFlight s;
          flights := <[pid := {| task := t'; promise := None |}]> (flights s);
          callers := callers s; requests := reqs; calls := calls s |}.
Proof.
  intros W H R Hc. pose proof (wf_pending _ _ _ W H) as Hin.
  pose proof (lookup_lt_Some _ _ _ H) as Hlt.
  assert (T : fetchImpl c <> None) by (eapply wf_transport; eauto).
  destruct W. split; simpl.
  - intros j f Hj Hne. rewrite list_lookup_insert_ne in Hj by congruence. eauto.
  - intros p Hp. rewrite Hin in Hp. injection Hp as <-. eexists. by apply list_lookup_insert_eq.
  - intros j f Hj _. done.
  - intros j f tok Hj Ht. destruct (decide (pid = j)) as [<-|Hne].
    + rewrite list_lookup_insert_eq in Hj by done. injection Hj as <-. simpl in Ht.
      destruct Hc as [[_ Hc]|(tok' & x & -> & ? & _)]; [by destruct (Hc tok)|congruence].
    + rewrite list_lookup_insert_ne in Hj by done. eauto.
  - intros e He. destruct Hc as [[-> _]|(tok & x & _ & ? & ->)]; [split; [by eapply wf_cache0|done]|].
    injection He as <-. done.
  - done.
  - intros p u Hp. rewrite Hin in Hp. injection Hp as <-.
    rewrite list_lookup_insert_eq by done. intros [= <-] Hu.
    destruct Hc as [[-> _]|(tok & x & -> & _)]; [|by destruct (Hu tok)].
    apply (wf_stale0 pid t Hin H). intros tok ->. done.
Qed.

Lemma wf_step e s : wf c s -> wf c (step c e s).
Proof.
  intros W. destruct e; simpl.
  - (* Invoke *)
    destruct (resolveValue _ _) as [v n]. destruct W. split; simpl; try done.
    intros i tok. rewrite lookup_app_Some. intros [?|[_ H]]; [eauto|].
    apply list_lookup_singleton_Some in H as [_ [=]].
  - (* FallbackResolved *)
    destruct (callers s !! i) as [[v| |]|] eqn:Hi; try done.
    unfold afterFallback. destruct v as [v|e]; [|by apply wf_setCaller].
    destruct (nonEmpty (nullish _ _)) as [fb|] eqn:Hfb.
    { apply wf_setCaller; [done|]. intros tok [= <-]. by apply nonEmpty_Some in Hfb as [_ ?]. }
    destruct (nonEmpty (getCachedToken s)) as [tk|] eqn:Hck.
    { apply wf_setCaller; [done|]. intros tok [= <-]. by apply nonEmpty_Some in Hck as [_ ?]. }
    destruct (inFlight s) as [pid|] eqn:Hin; [by apply wf_setCaller|].
    destruct (requestToken c s) as [t n] eqn:Hrt.
    assert (Ht : (forall tok, t <> Settled (Fulfilled tok)) /\
                 (running {| task := t; promise := None |} -> fetchImpl c <> None)).
    { unfold requestToken in Hrt. destruct (fetchImpl c).
      - do 2 destruct (resolveValue _ _). injection Hrt as <- _. done.
      - injection Hrt as <- _. split; [done|]. intros []. }
    destruct Ht as [Ht1 Ht2]. destruct W. split; simpl.
    + intros j f Hj Hne. apply lookup_app_Some in Hj as [Hj|[Hge Hj]].
      * apply (wf_idle0 j f Hj). by rewrite Hin.
      * apply list_lookup_singleton_Some in Hj as [Hj _]. destruct Hne. f_equal. lia.
    + intros p [= <-]. eexists. rewrite lookup_app_r by done. by rewrite Nat.sub_diag.
    + intros j f Hj Hr. apply lookup_app_Some in Hj as [Hj|[Hge Hj]]; [eauto|].
      apply list_lookup_singleton_Some in Hj as [_ <-]. auto.
    + intros j f tok Hj Hs. apply lookup_app_Some in Hj as [Hj|[Hge Hj]]; [eauto|].
      apply list_lookup_singleton_Some in Hj as [_ <-]. simpl in Hs. by destruct (Ht1 tok).
    + done.
    + intros j tok Hj. apply list_lookup_insert_Some in Hj as [[_ [[=] _]]|[? ?]]. eauto.
    + intros. done.
  - (* CredentialsResolved *)
    destruct (flights s !! pid) as [[[id secret| | | |] [|]]|] eqn:Hp; try done.
    destruct (afterCredentials c (world s) id secret) as [t sent] eqn:Ha.
    eapply (wf_progress _ _ _ _ _ _ W Hp); [done|]. left. split; [done|].
    unfold afterCredentials in Ha. repeat case_match; by injection Ha as <- _.
  - (* FetchSettled *)
    destruct (flights s !! pid) as [[[id secret| | | |] [|]]|] eqn:Hp; try done.
    unfold setTask. eapply (wf_progress _ _ _ _ _ _ W Hp); [done|]. left. split; [done|].
    unfold afterFetch. by repeat case_match.
  - (* BodySettled *)
    destruct (flights s !! pid) as [[[id secret| |resp|resp|] [|]]|] eqn:Hp; try done.
    + unfold setTask. eapply (wf_progress _ _ _ _ _ _ W Hp); [done|]. by left.
    + destruct (afterJson c s (json resp)) as [r cache'] eqn:Ha.
      eapply (wf_progress _ _ _ _ _ _ W Hp); [done|].
      unfold afterJson in Ha. destruct (json resp) as [data|e].
      * destruct (nonEmpty (access_token data)) as [tok|] eqn:Htok.
        -- injection Ha as <- <-. right. apply nonEmpty_Some in Htok as [_ ?]. eauto.
        -- injection Ha as <- <-. by left.
      * injection Ha as <- <-. by left.
  - (* FinallyRuns *)
    destruct (flights s !! pid) as [[[id secret| | | |r] [|]]|] eqn:Hp; try done.
    pose proof (wf_pending _ _ _ W Hp) as Hin.
    pose proof (lookup_lt_Some _ _ _ Hp) as Hlt.
    destruct W. split; simpl; try done.
    + intros j f Hj _. destruct (decide (pid = j)) as [<-|Hne].
      * rewrite list_lookup_insert_eq in Hj by done. injection Hj as <-. by eexists.
      * rewrite list_lookup_insert_ne in Hj by done. apply (wf_idle0 j f Hj). congruence.
    + intros j f Hj Hr. destruct (decide (pid = j)) as [<-|Hne].
      * rewrite list_lookup_insert_eq in Hj by done. injection Hj as <-. done.
      * rewrite list_lookup_insert_ne in Hj by done. eauto.
    + intros j f tok Hj Ht. destruct (decide (pid = j)) as [<-|Hne].
      * rewrite list_lookup_insert_eq in Hj by done. injection Hj as <-. eauto.
      * rewrite list_lookup_insert_ne in Hj by done. eauto.
  - (* InFlightSettled *)
    destruct (callers s !! i) as [[v|pid|]|] eqn:Hi; try done.
    destruct (flights s !! pid) as [[t [r|]]|] eqn:Hp; try done.
    apply wf_setCaller; [done|]. intros tok [= ->].
    assert (Hne : inFlight s <> Some pid).
    { intros Hin. destruct (wf_busy c s W _ Hin) as [t' Ht']. congruence. }
    destruct (wf_idle c s W _ _ Hp Hne) as [r [= -> <-]].
    eapply wf_settled; eauto.
  - (* ClockAdvances *)
    destruct W. split; simpl; try done.
    intros pid t Hin Hp Ht. apply getCachedToken_clock. eauto.
  - (* WorldChanges *)
    destruct W. split; simpl; done.
Qed.

Lemma wf_run (events : list Event) (s : State) : wf c s -> wf c (run c events s).
Proof.
  revert s. induction events as [|e events IH]; intros s W; simpl; [done|].
  apply IH. by apply wf_step.
Qed.

Lemma filter_none {A : Type} (P : A -> Prop) `{forall x, Decision (P x)} (l : list A) :
  (forall x, x ∈ l -> ~ P x) -> filter P l = [].
Proof.
  induction l as [|x l IH]; intros Hl; [done|].
  rewrite filter_cons. destruct (decide (P x)) as [Hx|Hx].
  - destruct (Hl x); [left|done].
  - apply IH. intros y Hy. apply Hl. by right.
Qed.

Lemma at_most_one {A : Type} (P : A -> Prop) `{forall x, Decision (P x)}
    (l : list A) (k : option nat) :
  (forall j x, l !! j = Some x -> k <> Some j -> ~ P x) ->
  (length (filter P l) <= 1)%nat.
Proof.
  revert k. induction l as [|x l IH]; intros k Hk; simpl; [lia|].
  rewrite filter_cons. destruct (decide (P x)) as [Hx|Hx].
  - assert (k = Some 0%nat) as ->.
    { destruct (decide (k = Some 0%nat)); [done|]. by destruct (Hk 0%nat x). }
    rewrite (filter_none P l); [simpl; lia|].
    intros y Hy. apply list_elem_of_lookup in Hy as [j Hj].
    by apply (Hk (S j) y).
  - apply (IH (match k with Some (S n) => Some n | _ => None end)).
    intros j y Hj Hne. apply (Hk (S j) y Hj). intros ->. done.
Qed.

Lemma append_assoc (a b d : string) : (a +:+ b) +:+ d = a +:+ b +:+ d.
Proof.
  induction a as [|x a IH]; [done|].
  change (String x ((a +:+ b) +:+ d) = String x (a +:+ b +:+ d)). by rewrite IH.
Qed.

Lemma trimEnd_cons (x : ascii) (q : string) :
  trimEnd (String x q) =
  match trimEnd q with
  | EmptyString => if is_space x then EmptyString else String x EmptyString
  | r => String x r
  end.
Proof. done. Qed.

Lemma trimEnd_nonspace (a : ascii) (s : string) :
  is_space a = false -> trimEnd (String a s) = String a (trimEnd s).
Proof. intros H. simpl. rewrite H. by destruct (trimEnd s). Qed.

Lemma trimEnd_app_nonspace (p : string) (a : ascii) (s : string) :
  is_space a = false -> trimEnd (p +:+ String a s) = p +:+ String a (trimEnd s).
Proof.
  intros H. induction p as [|x p IH]; [by apply trimEnd_nonspace|].
  change (trimEnd (String x (p +:+ String a s)) = String x (p +:+ String a (trimEnd s))).
  rewrite trimEnd_cons, IH. by destruct p.
Qed.

Lemma endpointError_message (resp : Response) :
  exists body,
    (text resp = Fulfilled body \/ (exists e, text resp = Rejected e) /\ body = "<no body>") /\
    endpointError resp =
      MkError ("Failed to retrieve Alvys access token (" +:+ pretty (status resp) +:+ " "
                 +:+ statusText resp +:+ "):" +:+ trimEnd (" " +:+ body)).
Proof.
  exists (match text resp with Fulfilled t => t | Rejected _ => "<no body>" end).
  split; [destruct (text resp); eauto|].
  unfold endpointError, trim. f_equal.
  set (body := match text resp with Fulfilled t => t | Rejected _ => "<no body>" end).
  set (P := "Failed to retrieve Alvys access token (").
  assert (E : P +:+ pretty (status resp) +:+ " " +:+ statusText resp +:+ "): " +:+ body
            = (P +:+ pretty (status resp) +:+ " " +:+ statusText resp +:+ ")")
                +:+ String ":" (" " +:+ body)).
  { by rewrite !append_assoc. }
  rewrite E, trimEnd_app_nonspace by done.
  by rewrite !append_assoc.
Qed.

Lemma lookup_setTask (s : State) (pid : nat) (t : Task) :
  (pid < length (flights s))%nat ->
  flights (setTask pid t s) !! pid = Some {| task := t; promise := None |}.
Proof. intros H. simpl. by apply list_lookup_insert_eq. Qed.

Lemma getCachedToken_later (s s' : State) :
  nonEmpty (getCachedToken s) = None -> cache s' = cache s -> now s <= now s' ->
  nonEmpty (getCachedToken s') = None.
Proof.
  unfold getCachedToken. intros H -> Hn. destruct (cache s) as [e|]; [|done].
  destruct (Z.gtb_spec (expiresAt e) (now s)); destruct (Z.gtb_spec (expiresAt e) (now s'));
    try done; lia.
Qed.

(** A step leaves the cache as it is, unless it settles a refresh
    successfully. *)
Lemma cache_step (e : Event) (s : State) :
  cache (step c e s) = cache s \/
  exists pid tok x,
    e = BodySettled pid /\
    flights (step c e s) !! pid = Some {| task := Settled (Fulfilled tok); promise := None |} /\
    cache (step c e s) = Some {| token := tok; expiresAt := x |}.
Proof.
  destruct e; simpl; try (by left).
  - left. by destruct (resolveValue _ _).
  - left. unfold afterFallback. by repeat case_match.
  - left. by repeat case_match.
  - left. by repeat case_match.
  - destruct (flights s !! pid) as [[[id secret| |resp|resp|] [|]]|] eqn:Hp; try (by left).
    unfold afterJson. destruct (json resp) as [data|err]; [|by left].
    destruct (nonEmpty (access_token data)) as [tok|]; [|by left]. simpl. right.
    eexists pid, tok, _. split; [done|]. split; [|done].
    apply list_lookup_insert_eq. by eapply lookup_lt_Some.
  - left. by repeat case_match.
  - left. by repeat case_match.
Qed.

(** Requests are only ever added by the step that calls [fetchImpl], and
    they are built from the closure. *)
Lemma requests_step (e : Event) (s : State) :
  requests (step c e s) = requests s \/
  exists pid id secret, e = CredentialsResolved pid /\
    id <> "" /\ secret <> "" /\
    requests (step c e s) = requests s ++ [tokenRequest c id secret].
Proof.
  destruct e; simpl; try (by left).
  - left. by destruct (resolveValue _ _).
  - left. unfold afterFallback. by repeat case_match.
  - destruct (flights s !! pid) as [[[id secret| | | |] [|]]|]; try (by left).
    unfold afterCredentials.
    destruct id as [id|]; [|left; simpl; by rewrite app_nil_r].
    destruct secret as [secret|]; [|left; simpl; by rewrite app_nil_r].
    destruct (nonEmpty (nullish id _)) as [cid|] eqn:Hid; [|left; simpl; by rewrite app_nil_r].
    destruct (nonEmpty (nullish secret _)) as [csec|] eqn:Hsec;
      [|left; simpl; by rewrite app_nil_r].
    right. apply nonEmpty_Some in Hid as [_ ?]. apply nonEmpty_Some in Hsec as [_ ?].
    by eexists pid, cid, csec.
  - left. by repeat case_match.
  - left. by repeat case_match.
  - left. by repeat case_match.
  - left. by repeat case_match.
Qed.

Lemma requests_run (events : list Event) (s : State) (req : Request) :
  req ∈ requests (run c events s) ->
  req ∈ requests s \/ exists id secret, id <> "" /\ secret <> "" /\ req = tokenRequest c id secret.
Proof.
  revert s. induction events as [|e events IH]; intros s; simpl; [by left|].
  intros [H|H]%IH; [|by right].
  destruct (requests_step e s) as [E|(pid & id & secret & _ & ? & ? & E)];
    rewrite E in H; [by left|]. apply elem_of_app in H as [H|H]; [by left|].
  apply list_elem_of_singleton in H. right. eauto.
Qed.

Lemma tokenRequest_fields (id secret : string) :
  via (tokenRequest c id secret) = fetchImpl c /\
  url (tokenRequest c id secret) = AUTH_TOKEN_URL /\
  body (tokenRequest c id secret) !! "audience" = Some (audience c) /\
  body (tokenRequest c id secret) !! "scope" = nonEmpty (scope c) /\
  body (tokenRequest c id secret) !! "client_id" = Some id /\
  body (tokenRequest c id secret) !! "client_secret" = Some secret /\
  body (tokenRequest c id secret) !! "grant_type" = Some "client_credentials".
Proof.
  unfold tokenRequest, payload; simpl. destruct (nonEmpty (scope c)); by simplify_map_eq.
Qed.

Lemma requests_other (e : Event) (s : State) :
  (forall pid, e <> CredentialsResolved pid) -> requests (step c e s) = requests s.
Proof.
  intros H. destruct (requests_step e s) as [E|(pid & ? & ? & -> & _)]; [done|].
  by destruct (H pid).
Qed.
(** A flight only changes by its own steps. *)
Lemma flight_frame (e : Event) (s : State) (pid : nat) (f : Flight) :
  flights s !! pid = Some f -> ~ stepOf pid e -> flights (step c e s) !! pid = Some f.
Proof.
  intros Hp He. destruct e as [|i|p|p r|p|p|i|ms|w]; simpl in *.
  - by destruct (resolveValue _ _).
  - unfold afterFallback. repeat case_match; simpl; try done. by apply lookup_app_l_Some.
  - repeat case_match; simpl; try done. by rewrite list_lookup_insert_ne.
  - repeat case_match; simpl; try done. by rewrite list_lookup_insert_ne.
  - repeat case_match; simpl; try done; by rewrite list_lookup_insert_ne.
  - repeat case_match; simpl; try done. by rewrite list_lookup_insert_ne.
  - repeat case_match; simpl; done.
  - done.
  - done.
Qed.

Lemma flight_frame_run (events : list Event) (s : State) (pid : nat) (f : Flight) :
  flights s !! pid = Some f -> Forall (fun e => ~ stepOf pid e) events ->
  flights (run c events s) !! pid = Some f.
Proof.
  revert s. induction events as [|e events IH]; intros s Hp H; [done|].
  inversion H; subst. simpl. apply IH; [|done]. by apply flight_frame.
Qed.

(** A finished flight never changes again. *)
Lemma finished_stable (events : list Event) (s : State) (pid : nat) (r : Outcome string) :
  flights s !! pid = Some {| task := Settled r; promise := Some r |} ->
  flights (run c events s) !! pid = Some {| task := Settled r; promise := Some r |}.
Proof.
  revert s. induction events as [|e events IH]; intros s Hp; [done|].
  simpl. apply IH.
  destruct e as [|i|p|p a|p|p|i|ms|w]; try (by apply flight_frame; [|simpl; tauto]);
    (destruct (decide (p = pid)) as [->|Hne]; [simpl; by rewrite Hp|by apply flight_frame]).
Qed.

(** Flights are never removed. *)
Lemma flights_grow (e : Event) (s : State) :
  (length (flights s) <= length (flights (step c e s)))%nat.
Proof.
  destruct e; simpl; unfold afterFallback, setCaller, setTask;
    repeat case_match; simpl; rewrite ?length_insert, ?length_app; simpl; lia.
Qed.

Lemma flights_grow_run (events : list Event) (s : State) :
  (length (flights s) <= length (flights (run c events s)))%nat.
Proof.
  revert s. induction events as [|e events IH]; intros s; simpl; [done|].
  etrans; [apply (flights_grow e)|apply IH].
Qed.

(** A refresh that is pending and has not succeeded was so one step
    earlier. *)
Lemma pending_before (e : Event) (s : State) (pid : nat) (f : Flight) (t' : Task) :
  flights s !! pid = Some f ->
  flights (step c e s) !! pid = Some {| task := t'; promise := None |} ->
  (forall tok, t' <> Settled (Fulfilled tok)) ->
  exists t, f = {| task := t; promise := None |} /\ forall tok, t <> Settled (Fulfilled tok).
Proof.
  intros Hp Hq Ht.
  assert (Same : flights (step c e s) !! pid = Some f -> 
                 exists t, f = {| task := t; promise := None |} /\ forall tok, t <> Settled (Fulfilled tok)).
  { intros E. rewrite E in Hq. injection Hq as ->. eauto. }
  pose proof (lookup_lt_Some _ _ _ Hp) as Hlt.
  destruct e as [|i|p|p a|p|p|i|ms|w]; try (apply Same; apply flight_frame; [done|simpl; tauto]);
    (destruct (decide (p = pid)) as [->|Hne]; [|apply Same; by apply flight_frame]);
    simpl in Hq; rewrite Hp in Hq.
  - destruct f as [[id secret| | | |r] [r'|]]; try (by apply Same; simpl; rewrite Hp).
    exists (ResolvingCredentials id secret). done.
  - destruct f as [[id secret| | | |r] [r'|]]; try (by apply Same; simpl; rewrite Hp).
    exists Fetching. done.
  - destruct f as [[id secret| |resp|resp|r] [r'|]]; try (by apply Same; simpl; rewrite Hp).
    + exists (ReadingText resp). done.
    + exists (ReadingJson resp). done.
  - destruct f as [[id secret| | | |r] [r'|]]; try (by apply Same; simpl; rewrite Hp).
    simpl in Hq. rewrite list_lookup_insert_eq in Hq by done. done.
Qed.

(** While a refresh is pending and has not succeeded, the cache is the one
    it found. *)
Lemma pending_keeps_cache (events : list Event) (s1 : State) (pid : nat) (t1 t : Task) :
  wf c s1 ->
  flights s1 !! pid = Some {| task := t1; promise := None |} ->
  flights (run c events s1) !! pid = Some {| task := t; promise := None |} ->
  (forall tok, t <> Settled (Fulfilled tok)) ->
  cache (run c events s1) = cache s1.
Proof.
  intros W H1. revert t. induction events as [|e events IH] using rev_ind; intros t H2 Ht; [done|].
  rewrite run_app in *. simpl in *. set (s := run c events s1) in *.
  assert (Ws : wf c s) by (by apply wf_run).
  destruct (flights s !! pid) as [f|] eqn:Hf.
  - destruct (pending_before _ _ _ _ _ Hf H2 Ht) as (t0 & -> & Ht0).
    rewrite <- (IH t0 eq_refl Ht0).
    destruct (cache_step e s) as [|(p & tok & x & -> & Hp & _)]; [done|].
    pose proof (wf_step (BodySettled p) _ Ws) as Ws'.
    pose proof (wf_pending _ _ _ Ws' Hp) as E1.
    pose proof (wf_pending _ _ _ Ws' H2) as E2.
    rewrite E1 in E2. injection E2 as ->. rewrite Hp in H2. injection H2 as <-.
    by destruct (Ht tok).
  - exfalso. apply lookup_ge_None in Hf.
    pose proof (flights_grow_run events s1). apply lookup_lt_Some in H1. fold s in H. lia.
Qed.
Lemma wf_outstanding (s : State) : wf c s -> (outstanding s <= 1)%nat.
Proof.
  intros W. unfold outstanding. apply (at_most_one _ _ (inFlight s)).
  intros j f Hj Hne. destruct (wf_idle c s W j f Hj Hne) as [r ->]. done.
Qed.

End ProviderInvariants.

(** ** Coalescing: the invariant of a burst of concurrent invocations *)
Section SingleFlight.
Import Js Provider Coalescing.
Variable c : Closure.
Variable s0 : State.
Variables clientId clientSecret : string.
Variable answer : Outcome Response.

Hypothesis Hwf : wf c s0.
Hypothesis Hquiet : quiet s0.
Hypothesis Hstale : nonEmpty (getCachedToken s0) = None.
Hypothesis Hfetch : fetchImpl c <> None.
Hypothesis Hfallback : noFallback (world s0).
Hypothesis Hcreds : credentials s0 clientId clientSecret.

Local Abbreviation inv := (inv c s0 clientId clientSecret answer).
Local Abbreviation okFlight := (okFlight c s0 clientId clientSecret answer).
Local Abbreviation okCaller := (okCaller s0).
Local Abbreviation shared := (shared s0).

Lemma old_flights (j : nat) (f : Flight) : flights s0 !! j = Some f -> finished f.
Proof. intros H. apply (wf_idle c s0 Hwf j f H). destruct Hquiet as [-> _]. done. Qed.

Lemma inv_start : inv False s0.
Proof.
  split; [done|lia| |].
  - exists []. by rewrite app_nil_r.
  - left. by destruct Hquiet.
Qed.

Lemma inv_late (s : State) : inv False s -> inv True s.
Proof.
  intros [Hw Hn Hc Hf]. split; try done.
  destruct Hf as [Hf|(fl & Hfl & Hok)]; [by left|right].
  exists fl. split; [done|]. destruct fl as [[[id|] [secret|]| | | |] [|]]; simpl in *; tauto.
Qed.

(** A flight with a pending promise is the shared one. *)
Lemma pending_is_shared (late : Prop) (s : State) (pid : nat) (t : Task) :
  inv late s -> flights s !! pid = Some {| task := t; promise := None |} ->
  pid = shared /\ flights s = flights s0 ++ [{| task := t; promise := None |}] /\
  okFlight late s {| task := t; promise := None |}.
Proof.
  intros [_ _ _ Hf] Hp. destruct Hf as [(Hf & _)|(fl & Hfl & Hok)].
  - rewrite Hf in Hp. by destruct (old_flights _ _ Hp) as [r [=]].
  - rewrite Hfl in Hp. apply lookup_app_Some in Hp as [Hp|[Hge Hp]].
    + by destruct (old_flights _ _ Hp) as [r [=]].
    + apply list_lookup_singleton_Some in Hp as [Hz <-]. unfold Coalescing.shared.
      split; [lia|done].
Qed.

Lemma okCaller_keep (s s' : State) (cl : Caller) :
  (forall r, flights s !! shared = Some {| task := Settled r; promise := Some r |} ->
             flights s' !! shared = Some {| task := Settled r; promise := Some r |}) ->
  okCaller s cl -> okCaller s' cl.
Proof.
  intros H [?|[?|(r & ? & ?)]]; [by left|by right; left|].
  right; right. exists r. auto.
Qed.

(** A caller is an old, settled one, or a new one that obeys [okCaller]. *)
Lemma caller_lookup (late : Prop) (s : State) (i : nat) (cl : Caller) :
  inv late s -> callers s !! i = Some cl ->
  (exists r, cl = Done r) \/
  (exists cs, callers s = callers s0 ++ cs /\ Forall (okCaller s) cs /\
              (length (callers s0) <= i)%nat /\ okCaller s cl).
Proof.
  intros [_ _ (cs & Hcs & Hok) _] Hi. rewrite Hcs in Hi.
  apply lookup_app_Some in Hi as [Hi|[Hge Hi]].
  - left. destruct Hquiet as [_ Hq]. apply Hq. by eapply list_elem_of_lookup_2.
  - right. exists cs. split; [done|]. split; [done|]. split; [done|].
    rewrite Forall_forall in Hok. apply Hok. by eapply list_elem_of_lookup_2.
Qed.

Lemma insert_new_caller (cs : list Caller) (i : nat) (cl : Caller) :
  (length (callers s0) <= i)%nat ->
  <[i := cl]> (callers s0 ++ cs) = callers s0 ++ <[(i - length (callers s0))%nat := cl]> cs.
Proof. intros H. by rewrite insert_app_r_alt. Qed.

Lemma insert_shared (fl fl' : Flight) :
  <[shared := fl']> (flights s0 ++ [fl]) = flights s0 ++ [fl'].
Proof.
  unfold Coalescing.shared. rewrite insert_app_r_alt by done. by rewrite Nat.sub_diag.
Qed.

Lemma lookup_shared (fl : Flight) : (flights s0 ++ [fl]) !! shared = Some fl.
Proof. unfold Coalescing.shared. apply list_lookup_middle. done. Qed.

(** Steps that may occur in either phase. *)
Lemma inv_step_common (late : Prop) (s : State) (e : Event) :
  inv late s ->
  match e with
  | CredentialsResolved _ | BodySettled _ | FinallyRuns _ | InFlightSettled _
  | ClockAdvances _ => True
  | _ => False
  end ->
  inv late (step c e s).
Proof.
  intros I He. destruct e as [|i|pid|pid r|pid|pid|i|ms|w]; try done; cbn [step].
  - (* CredentialsResolved *)
    destruct (flights s !! pid) as [[t [r|]]|] eqn:Hp; [by destruct t| |done].
    destruct (pending_is_shared _ _ _ _ I Hp) as (-> & Hfl & Hok).
    destruct t as [id secret| | | |]; try done.
    destruct id as [id|]; [|done]. destruct secret as [secret|]; [|done].
    simpl in Hok. destruct Hok as (Hid & Hsec & Hin & Hreq & Hc).
    destruct I as [Hw Hn (cs & Hcs & Hcl) _].
    unfold afterCredentials. rewrite Hw, Hid, Hsec.
    split; cbn [world now callers flights requests cache inFlight calls]; try done.
    + exists cs. split; [done|]. eapply Forall_impl; [exact Hcl|].
      intros cl. apply okCaller_keep. intros r Hr. rewrite Hfl, lookup_shared in Hr. done.
    + right. eexists. rewrite Hfl, insert_shared. split; [done|]. simpl.
      unfold sent. cbn [requests]. by rewrite Hreq.
  - (* BodySettled *)
    destruct (flights s !! pid) as [[t [r|]]|] eqn:Hp; [by destruct t| |done].
    destruct (pending_is_shared _ _ _ _ I Hp) as (-> & Hfl & Hok).
    destruct t as [id secret| |resp|resp|]; try done;
      destruct I as [Hw Hn (cs & Hcs & Hcl) _].
    + simpl in Hok. destruct Hok as (Hl & Ha & Hk & Hin & Hs).
      split; cbn [setTask world now callers flights requests cache inFlight calls]; try done.
      * exists cs. split; [done|]. eapply Forall_impl; [exact Hcl|].
        intros cl. apply okCaller_keep. intros r Hr. rewrite Hfl, lookup_shared in Hr. done.
      * right. eexists. rewrite Hfl, insert_shared. split; [done|]. simpl.
        split; [done|]. split; [|done]. intros resp' data tok Hr Hok'. congruence.
    + simpl in Hok. destruct Hok as (Hl & Ha & Hk & Hin & Hs).
      destruct (afterJson c s (json resp)) as [r cache'] eqn:Hj.
      split; cbn [world now callers flights requests cache inFlight calls]; try done.
      * exists cs. split; [done|]. eapply Forall_impl; [exact Hcl|].
        intros cl. apply okCaller_keep. intros r' Hr. rewrite Hfl, lookup_shared in Hr. done.
      * right. eexists. rewrite Hfl, insert_shared. split; [done|]. simpl.
        split; [done|]. split; [|done]. intros resp' data tok Hr Hok' Hd Ht Hne.
        rewrite Ha in Hr. injection Hr as <-. unfold afterJson in Hj. rewrite Hd in Hj.
        rewrite (proj2 (nonEmpty_Some (access_token data) tok)) in Hj by done.
        by injection Hj as <- _.
  - (* FinallyRuns *)
    destruct (flights s !! pid) as [[t [r|]]|] eqn:Hp; [by destruct t| |done].
    destruct (pending_is_shared _ _ _ _ I Hp) as (-> & Hfl & Hok).
    destruct t as [id secret| | | |r]; try done.
    simpl in Hok. destruct Hok as (Hl & Ha & Hin & Hs).
    destruct I as [Hw Hn (cs & Hcs & Hcl) _].
    split; cbn [world now callers flights requests cache inFlight calls]; try done.
    + exists cs. split; [done|]. eapply Forall_impl; [exact Hcl|].
      intros cl. apply okCaller_keep. intros r' Hr. rewrite Hfl, lookup_shared in Hr. done.
    + right. eexists. rewrite Hfl, insert_shared. split; [done|]. simpl. done.
  - (* InFlightSettled *)
    destruct (callers s !! i) as [[v|pid|r]|] eqn:Hi; try done.
    destruct (flights s !! pid) as [[t [r|]]|] eqn:Hp; try done.
    destruct (caller_lookup _ _ _ _ I Hi) as [(r' & [=])|(cs & Hcs & Hcl & Hge & Hok)].
    destruct Hok as [(v & [=] & _)|[[= ->]|(r' & [=] & _)]].
    assert (t = Settled r) as ->.
    { destruct I as [_ _ _ [(Hf & _)|(fl & Hfl & Hok)]].
      - rewrite Hf in Hp. apply lookup_lt_Some in Hp. unfold Coalescing.shared in Hp. lia.
      - rewrite Hfl, lookup_shared in Hp. injection Hp as ->.
        destruct t as [[|] [|]| | | |]; simpl in Hok; try done. by destruct Hok as (_ & -> & _). }
    destruct I as [Hw Hn _ Hf].
    split; cbn [setCaller world now callers flights requests cache inFlight calls]; try done.
    exists (<[(i - length (callers s0))%nat := Done r]> cs).
    split; [by rewrite Hcs, insert_new_caller|].
    apply Forall_insert; [done|]. right; right. by exists r.
  - (* ClockAdvances *)
    destruct I as [Hw Hn Hc Hf].
    split; cbn [world now callers flights requests cache inFlight calls].
    + done.
    + lia.
    + destruct Hc as (cs & Hcs & Hcl). exists cs. split; [done|].
      eapply Forall_impl; [exact Hcl|]. intros cl. by apply okCaller_keep.
    + destruct Hf as [Hf|(fl & Hfl & Hok)]; [by left|right].
      exists fl. split; [done|]. by destruct fl as [[[id|] [secret|]| | | |] [|]].
Qed.

Lemma stale_later (s : State) :
  cache s = cache s0 -> now s0 <= now s -> nonEmpty (getCachedToken s) = None.
Proof. intros. by apply (getCachedToken_later s0 s). Qed.

(** While the callers arrive. *)
Lemma inv_arrival (s : State) (e : Event) :
  inv False s -> arrival e -> inv False (step c e s).
Proof.
  intros I He. destruct e as [|i|pid|pid r|pid|pid|i|ms|w]; try done;
    try (by apply inv_step_common).
  - (* Invoke *)
    cbn [step]. destruct I as [Hw Hn (cs & Hcs & Hcl) Hf].
    destruct (Hfallback (fallbackTokenCalls (calls s))) as (v & Hv & Hnone).
    rewrite Hw. destruct (resolveValue _ _) as [v' n]. simpl in Hv. subst v'.
    split; cbn [world now callers flights requests cache inFlight calls]; [done|done| |].
    + exists (cs ++ [AwaitFallback (Fulfilled v)]).
      split; [by rewrite Hcs, app_assoc|]. apply Forall_app. split.
      * eapply Forall_impl; [exact Hcl|]. intros cl. by apply okCaller_keep.
      * apply Forall_singleton. left. by exists v.
    + destruct Hf as [Hf|(fl & Hfl & Hok)]; [by left|right].
      exists fl. split; [done|]. by destruct fl as [[[id|] [secret|]| | | |] [|]].
  - (* FallbackResolved *)
    cbn [step]. destruct (callers s !! i) as [[v|pid|r]|] eqn:Hi; try done.
    destruct (caller_lookup _ _ _ _ I Hi) as [(r' & [=])|(cs & Hcs & Hcl & Hge & Hok)].
    destruct Hok as [(v' & [= ->] & Hnone)|[[=]|(r' & [=] & _)]].
    destruct I as [Hw Hn _ Hf].
    unfold afterFallback. rewrite Hw, Hnone.
    assert (Hc : cache s = cache s0).
    { destruct Hf as [Hf|(fl & Hfl & Hok)]; [tauto|].
      destruct fl as [[[id|] [secret|]| | | |] [|]]; simpl in Hok; tauto. }
    rewrite (stale_later s Hc Hn).
    destruct Hf as [(Hf & Hin & Hreq & _ & Hci & Hcs')|(fl & Hfl & Hok)].
    + (* the first caller to arrive starts the refresh *)
      rewrite Hin. destruct Hcreds as [(id & Hid & Hid') (secret & Hsec & Hsec')].
      unfold requestToken. destruct (fetchImpl c) as [f|]; [|done].
      rewrite Hw, Hci, Hcs'.
      destruct (resolveValue (Opts.clientId _) _) as [id' n1].
      destruct (resolveValue (Opts.clientSecret _) _) as [secret' n2].
      simpl in Hid, Hsec. subst id' secret'.
      split; cbn [world now callers flights requests cache inFlight calls]; try done.
      * exists (<[(i - length (callers s0))%nat := AwaitInFlight shared]> cs).
        rewrite Hf. split; [by rewrite Hcs, insert_new_caller|].
        apply Forall_insert; [|by right; left].
        eapply Forall_impl; [exact Hcl|]. intros cl. apply okCaller_keep.
        intros r Hr. rewrite Hf in Hr. apply lookup_lt_Some in Hr.
        unfold Coalescing.shared in Hr. lia.
      * right. eexists. rewrite Hf. split; [done|]. simpl. by repeat split.
    + (* the others join it *)
      assert (Hin : inFlight s = Some shared).
      { destruct fl as [[[id|] [secret|]| | | |] [|]]; simpl in Hok; tauto. }
      rewrite Hin.
      split; cbn [setCaller world now callers flights requests cache inFlight calls];
        try done; [|right; by exists fl].
      exists (<[(i - length (callers s0))%nat := AwaitInFlight shared]> cs).
      split; [by rewrite Hcs, insert_new_caller|].
      apply Forall_insert; [done|by right; left].
Qed.

(** Once every caller is past its fallback step. *)
Lemma inv_completion (s : State) (e : Event) :
  inv True s -> completion answer e -> inv True (step c e s).
Proof.
  intros I He. destruct e as [|i|pid|pid r|pid|pid|i|ms|w]; try done;
    try (by apply inv_step_common).
  simpl in He. subst r. cbn [step].
  destruct (flights s !! pid) as [[t [r|]]|] eqn:Hp; [by destruct t| |done].
  destruct (pending_is_shared _ _ _ _ I Hp) as (-> & Hfl & Hok).
  destruct t as [id secret| | | |]; try done. simpl in Hok. destruct Hok as (Hin & Hs & Hc).
  destruct I as [Hw Hn (cs & Hcs & Hcl) _].
  split; cbn [setTask world now callers flights requests cache inFlight calls]; try done.
  - exists cs. split; [done|]. eapply Forall_impl; [exact Hcl|].
    intros cl. apply okCaller_keep. intros r Hr. rewrite Hfl, lookup_shared in Hr. done.
  - right. eexists. rewrite Hfl, insert_shared. split; [done|].
    unfold afterFetch. destruct answer as [resp|err]; [|simpl; by repeat split].
    destruct (ok resp) eqn:Hok; simpl; by repeat split.
Qed.

Lemma inv_arrivals (events : list Event) (s : State) :
  inv False s -> Forall arrival events -> inv False (run c events s).
Proof.
  revert s. induction events as [|e events IH]; intros s I H; [done|].
  inversion H; subst. simpl. apply IH; [|done]. by apply inv_arrival.
Qed.

Lemma inv_completions (events : list Event) (s : State) :
  inv True s -> Forall (completion answer) events -> inv True (run c events s).
Proof.
  revert s. induction events as [|e events IH]; intros s I H; [done|].
  inversion H; subst. simpl. apply IH; [|done]. by apply inv_completion.
Qed.

(** What the invariant gives once every invocation has settled. *)
Lemma inv_settled (s : State) (N : nat) :
  inv True s ->
  (1 <= N)%nat ->
  length (callers s) = (length (callers s0) + N)%nat ->
  (forall cl, cl ∈ callers s -> exists r, cl = Done r) ->
  requests s = requests s0 ++ [tokenRequest c clientId clientSecret] /\
  exists r,
    (forall i, (length (callers s0) <= i < length (callers s))%nat ->
               callers s !! i = Some (Done r)) /\
    answers answer r.
Proof.
  intros [Hw Hn (cs & Hcs & Hcl) Hf] HN Hlen Hall.
  assert (Hlcs : length cs = N) by (rewrite Hcs, length_app in Hlen; lia).
  assert (D : forall cl, cl ∈ cs -> exists r, cl = Done r /\
                flights s !! shared = Some {| task := Settled r; promise := Some r |}).
  { intros cl Hin. rewrite Forall_forall in Hcl.
    destruct (Hall cl) as [r ->]; [rewrite Hcs; apply elem_of_app; by right|].
    destruct (Hcl _ Hin) as [(v & [=] & _)|[[=]|(r' & [= <-] & Hr)]]. by exists r. }
  destruct cs as [|cl0 cs']; [simpl in Hlcs; lia|].
  destruct (D cl0) as (r & -> & Hr); [left|].
  destruct Hf as [(Hf & _)|(fl & Hfl & Hok)].
  { rewrite Hf in Hr. apply lookup_lt_Some in Hr. unfold Coalescing.shared in Hr. lia. }
  rewrite Hfl, lookup_shared in Hr. injection Hr as ->. simpl in Hok.
  destruct Hok as (_ & _ & Ha & _ & Hs). split; [done|]. exists r. split; [|done].
  intros i [Hge Hlt]. rewrite Hcs in Hlt |- *. rewrite lookup_app_r by done.
  destruct (lookup_lt_is_Some_2 (Done r :: cs') (i - length (callers s0))%nat) as [cl Hcl'].
  { rewrite length_app in Hlt. lia. }
  rewrite Hcl'. f_equal. destruct (D cl) as (r' & -> & Hr').
  { by eapply list_elem_of_lookup_2. }
  rewrite Hfl, lookup_shared in Hr'. by injection Hr' as ->.
Qed.
End SingleFlight.

(** ** The token provider: the claims *)
Section ProviderSpec.
Import Js Provider ProviderScenario TtlSpec Coalescing.

Lemma reachable_wf (w : World) (s : State) : reachable w s -> wf (create w) s.
Proof. intros (t & events & ->). apply wf_run, wf_init. Qed.

(** C10.  In every state a provider can reach, a caller that has resolved
    successfully holds a non-empty string; so do the cache and every
    refresh that settled successfully, the two places a caller's token can
    come from besides the fallback. *)
Theorem token_nonempty (w : World) (s : State) :
  reachable w s ->
  (forall i tok, callers s !! i = Some (Done (Fulfilled tok)) -> tok <> "") /\
  (forall e, cache s = Some e -> token e <> "") /\
  (forall pid f tok, flights s !! pid = Some f -> task f = Settled (Fulfilled tok) -> tok <> "").
Proof.
  intros W%reachable_wf. split; [|split].
  - apply (wf_callers _ _ W).
  - intros e He. by destruct (wf_cache _ _ W e He).
  - apply (wf_settled _ _ W).
Qed.

Lemma token_nonempty_witness :
  let s := run (create literalWorld)
             (oneCall 0 0 (Fulfilled (tokenResponse "abc" (ENumber 3600))))
             (init literalWorld 0) in
  reachable literalWorld s /\
  callers s !! 0%nat = Some (Done (Fulfilled "abc")) /\
  (forall i tok, callers s !! i = Some (Done (Fulfilled tok)) -> tok <> "") /\
  (forall e, cache s = Some e -> token e <> "") /\
  (forall pid f tok, flights s !! pid = Some f -> task f = Settled (Fulfilled tok) -> tok <> "").
Proof.
  intros s. assert (R : reachable literalWorld s) by (by eexists _, _).
  split; [exact R|]. split; [reflexivity|].
  apply (token_nonempty literalWorld s R).
Defined.

(** C2.  When the fallback token of an invocation resolves to a non-empty
    string, the invocation settles with that string in the very step that
    resumes it, whatever the cache, the in-flight marker and the flights
    are, and the step changes nothing but that caller: no cache write, no
    flight, no request, no credential factory call.  The call that began
    the invocation did not touch them either. *)
Theorem fallback_precedence (c : Closure) (s : State) (i : nat)
    (v : option string) (fallback : string) :
  callers s !! i = Some (AwaitFallback (Fulfilled v)) ->
  nonEmpty (nullish v (getEnv (world s) "ALVYS_TOKEN")) = Some fallback ->
  step c (FallbackResolved i) s = setCaller i (Done (Fulfilled fallback)) s /\
  callers (step c (FallbackResolved i) s) !! i = Some (Done (Fulfilled fallback)) /\
  cache (step c (FallbackResolved i) s) = cache s /\
  inFlight (step c (FallbackResolved i) s) = inFlight s /\
  flights (step c (FallbackResolved i) s) = flights s /\
  requests (step c (FallbackResolved i) s) = requests s /\
  calls (step c (FallbackResolved i) s) = calls s /\
  forall s0, cache (step c Invoke s0) = cache s0 /\
             inFlight (step c Invoke s0) = inFlight s0 /\
             flights (step c Invoke s0) = flights s0 /\
             requests (step c Invoke s0) = requests s0.
Proof.
  intros Hi Hf.
  assert (E : step c (FallbackResolved i) s = setCaller i (Done (Fulfilled fallback)) s).
  { simpl. rewrite Hi. unfold afterFallback. by rewrite Hf. }
  rewrite E. repeat split; try done.
  - simpl. apply list_lookup_insert_eq. by eapply lookup_lt_Some.
  - simpl. by destruct (resolveValue _ _).
  - simpl. by destruct (resolveValue _ _).
  - simpl. by destruct (resolveValue _ _).
  - simpl. by destruct (resolveValue _ _).
Qed.

Lemma fallback_precedence_witness :
  let c := create literalWorld in
  let s := run c (oneCall 0 0 (Fulfilled (tokenResponse "abc" (ENumber 3600)))
                    ++ [Invoke]) (init literalWorld 0) in
  let s' := step c (WorldChanges manualWorld) s in
  callers s' !! 1%nat = Some (AwaitFallback (Fulfilled None)) /\
  nonEmpty (nullish None (getEnv (world s') "ALVYS_TOKEN")) = Some "manual-token" /\
  callers (step c (FallbackResolved 1) s') !! 1%nat = Some (Done (Fulfilled "manual-token")) /\
  cache (step c (FallbackResolved 1) s') = cache s' /\
  requests (step c (FallbackResolved 1) s') = requests s'.
Proof.
  intros c s s'.
  assert (H1 : callers s' !! 1%nat = Some (AwaitFallback (Fulfilled None))) by reflexivity.
  assert (H2 : nonEmpty (nullish None (getEnv (world s') "ALVYS_TOKEN")) = Some "manual-token")
    by reflexivity.
  destruct (fallback_precedence c s' 1 None "manual-token" H1 H2)
    as (_ & Hc & Hcache & _ & _ & Hreq & _).
  auto.
Defined.




(** C8.  When the transport answers a pending request with a response
    whose status is outside 200..299, then, whatever else happens in
    between ([others1], [others2]: any events but steps of this refresh) and
    afterwards ([others3]: any events), once the body has been read and the
    [finally] callback has run the refresh is rejected with
    [endpointError], and every invocation awaiting it fails with that
    error.  The message carries the status code, the status text and the
    body text (without trailing white space, the whole message being
    trimmed), or the placeholder [<no body>] when reading the body
    failed. *)
Theorem endpoint_failure (c : Closure) (s : State) (pid : nat) (resp : Response)
    (others1 others2 others3 : list Event) :
  flights s !! pid = Some {| task := Fetching; promise := None |} ->
  ok resp = false ->
  Forall (fun e => ~ stepOf pid e) (others1 ++ others2) ->
  let r := Rejected (endpointError resp) in
  let s' := run c ([FetchSettled pid (Fulfilled resp)] ++ others1 ++ [BodySettled pid]
                    ++ others2 ++ [FinallyRuns pid] ++ others3) s in
  flights s' !! pid = Some {| task := Settled r; promise := Some r |} /\
  (forall i, callers s' !! i = Some (AwaitInFlight pid) ->
             callers (step c (InFlightSettled i) s') !! i = Some (Done r)) /\
  exists body,
    (text resp = Fulfilled body \/ (exists e, text resp = Rejected e) /\ body = "<no body>") /\
    endpointError resp =
      MkError ("Failed to retrieve Alvys access token (" +:+ pretty (status resp) +:+ " "
                 +:+ statusText resp +:+ "):" +:+ trimEnd (" " +:+ body)).
Proof.
  intros Hp Hok [H1 H2]%Forall_app r s'.
  assert (F : flights s' !! pid = Some {| task := Settled r; promise := Some r |}).
  { unfold s'. rewrite !run_app. apply finished_stable.
    set (s1 := run c [FetchSettled pid (Fulfilled resp)] s).
    assert (E1 : flights s1 !! pid = Some {| task := ReadingText resp; promise := None |}).
    { unfold s1, run. cbn [foldl step]. rewrite Hp. unfold afterFetch. rewrite Hok.
      apply lookup_setTask. by eapply lookup_lt_Some. }
    pose proof (flight_frame_run c others1 s1 pid _ E1 H1) as E2.
    set (s2 := run c others1 s1) in *.
    assert (E3 : flights (run c [BodySettled pid] s2) !! pid
                 = Some {| task := Settled r; promise := None |}).
    { unfold run. cbn [foldl step]. rewrite E2. apply lookup_setTask. by eapply lookup_lt_Some. }
    pose proof (flight_frame_run c others2 _ pid _ E3 H2) as E4.
    set (s4 := run c others2 _) in *.
    unfold run. cbn [foldl step]. rewrite E4. simpl.
    apply list_lookup_insert_eq. by eapply lookup_lt_Some. }
  split; [exact F|]. split; [|apply endpointError_message].
  intros i Hi. cbn [step]. rewrite Hi, F. simpl.
  apply list_lookup_insert_eq. by eapply lookup_lt_Some.
Qed.

Lemma endpoint_failure_witness :
  let c := create literalWorld in
  let s := run c [Invoke; Invoke; FallbackResolved 0; CredentialsResolved 0]
             (init literalWorld 0) in
  let s' := run c ([FetchSettled 0 (Fulfilled unavailable)] ++ [FallbackResolved 1]
                    ++ [BodySettled 0] ++ [ClockAdvances 5] ++ [FinallyRuns 0] ++ [Invoke]) s in
  flights s !! 0%nat = Some {| task := Fetching; promise := None |} /\
  ok unavailable = false /\
  Forall (fun e => ~ stepOf 0 e) ([FallbackResolved 1] ++ [ClockAdvances 5]) /\
  callers s' !! 1%nat = Some (AwaitInFlight 0) /\
  callers (step c (InFlightSettled 1) s') !! 1%nat
    = Some (Done (Rejected (endpointError unavailable))) /\
  endpointError unavailable
    = MkError "Failed to retrieve Alvys access token (503 Service Unavailable): upstream down".
Proof.
  intros c s s'.
  assert (H1 : flights s !! 0%nat = Some {| task := Fetching; promise := None |})
    by reflexivity.
  assert (H2 : ok unavailable = false) by reflexivity.
  assert (H3 : Forall (fun e => ~ stepOf 0 e) ([FallbackResolved 1] ++ [ClockAdvances 5])).
  { repeat constructor; simpl; tauto. }
  assert (H4 : callers s' !! 1%nat = Some (AwaitInFlight 0)) by reflexivity.
  destruct (endpoint_failure c s 0 unavailable [FallbackResolved 1] [ClockAdvances 5] [Invoke]
              H1 H2 H3) as (_ & Hcl & _).
  split; [exact H1|]. split; [exact H2|]. split; [exact H3|]. split; [exact H4|].
  split; [exact (Hcl 1%nat H4)|]. reflexivity.
Defined.





(** C3, as stated, fails: with an expired cached credential and no
    refresh in flight, a single call issues no request when the client
    secret no longer resolves (here a factory that answers only once); the
    call fails at the credentials check. *)
Lemma expired_cache_without_request :
  let c := create vaultWorld in
  let s1 := run c (oneCall 0 0 (Fulfilled (tokenResponse "abc" (ENumber 3600)))
                     ++ [ClockAdvances 3540000]) (init vaultWorld 0) in
  let s2 := run c (oneCall 1 1 (Fulfilled (tokenResponse "def" (ENumber 3600)))) s1 in
  cache s1 = Some {| token := "abc"; expiresAt := 3540000 |} /\
  now s1 = 3540000 /\
  inFlight s1 = None /\
  callers s1 = [Done (Fulfilled "abc")] /\
  length (requests s1) = 1%nat /\
  length (requests s2) <> S (length (requests s1)) /\
  requests s2 = requests s1 /\
  callers s2 !! 1%nat = Some (Done (Rejected (MkError
    "Missing Alvys client credentials. Set ALVYS_CLIENT_ID/ALVYS_CLIENT_SECRET or pass clientId/clientSecret to createAlvysAccessTokenProvider()."))).
Proof. vm_compute. repeat split; done. Qed.

(** C3, amended.  In a reachable state holding a cached credential, for an
    invocation whose fallback token does not resolve: if
    [expiresAt > now] the invocation returns the cached token and makes no
    request and starts no refresh; if [expiresAt <= now] and no refresh is
    in flight, it starts one refresh, and when the client credentials
    resolve for it, that single call, run to its end whatever the endpoint
    answers, adds exactly one request. *)
Theorem cache_validity (w : World) (s : State) (i : nat) (v : option string)
    (e : TokenCacheEntry) :
  let c := create w in
  reachable w s ->
  callers s !! i = Some (AwaitFallback (Fulfilled v)) ->
  nonEmpty (nullish v (getEnv (world s) "ALVYS_TOKEN")) = None ->
  cache s = Some e ->
  (expiresAt e > now s ->
   callers (step c (FallbackResolved i) s) !! i = Some (Done (Fulfilled (token e))) /\
   requests (step c (FallbackResolved i) s) = requests s /\
   flights (step c (FallbackResolved i) s) = flights s /\
   inFlight (step c (FallbackResolved i) s) = inFlight s) /\
  (expiresAt e <= now s -> inFlight s = None ->
   let pid := length (flights s) in
   (inFlight (step c (FallbackResolved i) s) = Some pid /\
    callers (step c (FallbackResolved i) s) !! i = Some (AwaitInFlight pid) /\
    length (flights (step c (FallbackResolved i) s)) = S (length (flights s))) /\
   forall r id secret n1 n2 cid csec,
     resolveValue (Opts.clientId (options (world s))) (clientIdCalls (calls s))
       = (Fulfilled id, n1) ->
     resolveValue (Opts.clientSecret (options (world s))) (clientSecretCalls (calls s))
       = (Fulfilled secret, n2) ->
     nonEmpty (nullish id (getEnv (world s) "ALVYS_CLIENT_ID")) = Some cid ->
     nonEmpty (nullish secret (getEnv (world s) "ALVYS_CLIENT_SECRET")) = Some csec ->
     requests (run c [FallbackResolved i; CredentialsResolved pid; FetchSettled pid r;
                      BodySettled pid; FinallyRuns pid; InFlightSettled i] s)
       = requests s ++ [tokenRequest c cid csec]).
Proof.
  intros c W%reachable_wf Hi Hf He. fold c in W.
  pose proof (lookup_lt_Some _ _ _ Hi) as Hlt.
  destruct (wf_cache _ _ W e He) as [Htok Hfi]. split.
  - intros Hv.
    assert (E : step c (FallbackResolved i) s = setCaller i (Done (Fulfilled (token e))) s).
    { cbn [step]. rewrite Hi. unfold afterFallback. rewrite Hf.
      unfold getCachedToken. rewrite He.
      destruct (Z.gtb_spec (expiresAt e) (now s)); [|lia].
      by rewrite (proj2 (nonEmpty_Some (Some (token e)) (token e))). }
    rewrite E. simpl. split; [by apply list_lookup_insert_eq|done].
  - intros Hv Hin pid.
    assert (Hc : nonEmpty (getCachedToken s) = None).
    { unfold getCachedToken. rewrite He. destruct (Z.gtb_spec (expiresAt e) (now s)); [lia|done]. }
    assert (E : step c (FallbackResolved i) s =
                {| world := world s; now := now s; cache := cache s; inFlight := Some pid;
                   flights := flights s ++ [{| task := (requestToken c s).1; promise := None |}];
                   callers := <[i := AwaitInFlight pid]> (callers s);
                   requests := requests s; calls := (requestToken c s).2 |}).
    { cbn [step]. rewrite Hi. unfold afterFallback. rewrite Hf, Hc, Hin.
      by destruct (requestToken c s). }
    split.
    + rewrite E. simpl. split; [done|]. split; [by apply list_lookup_insert_eq|].
      rewrite length_app. simpl. lia.
    + intros r id secret n1 n2 cid csec Hid Hsec Hcid Hcsec.
      unfold run. cbn [foldl]. rewrite !requests_other by done.
      rewrite E. cbn [step flights].
      rewrite lookup_app_r by done. fold pid. rewrite Nat.sub_diag. cbn [lookup list_lookup].
      unfold requestToken. destruct (fetchImpl c); [|done].
      rewrite Hid, Hsec. cbn [fst world]. unfold afterCredentials. rewrite Hcid, Hcsec. done.
Qed.

Lemma cache_validity_witness :
  let c := create literalWorld in
  let s := run c (oneCall 0 0 (Fulfilled (tokenResponse "abc" (ENumber 3600)))
                    ++ [ClockAdvances 10; Invoke]) (init literalWorld 0) in
  let e := {| token := "abc"; expiresAt := 3540000 |} in
  reachable literalWorld s /\
  callers s !! 1%nat = Some (AwaitFallback (Fulfilled None)) /\
  nonEmpty (nullish None (getEnv (world s) "ALVYS_TOKEN")) = None /\
  cache s = Some e /\
  expiresAt e > now s /\
  callers (step c (FallbackResolved 1) s) !! 1%nat = Some (Done (Fulfilled "abc")) /\
  requests (step c (FallbackResolved 1) s) = requests s.
Proof.
  intros c s e.
  assert (H1 : reachable literalWorld s) by (by eexists _, _).
  assert (H2 : callers s !! 1%nat = Some (AwaitFallback (Fulfilled None))) by reflexivity.
  assert (H3 : nonEmpty (nullish None (getEnv (world s) "ALVYS_TOKEN")) = None) by reflexivity.
  assert (H4 : cache s = Some e) by reflexivity.
  assert (H5 : expiresAt e > now s) by reflexivity.
  destruct (cache_validity literalWorld s 1 None e H1 H2 H3 H4) as [V _].
  destruct (V H5) as (Hc & Hr & _). auto 10.
Defined.

(** Section 8, cache validity, on a concrete provider: the second call,
    one millisecond before the cached credential expires, is answered from
    the cache. *)
Example two_calls_within_ttl :
  let c := create literalWorld in
  let s := run c (oneCall 0 0 (Fulfilled (tokenResponse "abc" (ENumber 3600)))
                    ++ [ClockAdvances 3539999; Invoke; FallbackResolved 1])
             (init literalWorld 0) in
  callers s = [Done (Fulfilled "abc"); Done (Fulfilled "abc")] /\
  length (requests s) = 1%nat /\ length (flights s) = 1%nat.
Proof. vm_compute. auto. Qed.

(** C1, as stated, fails: two concurrent invocations on a provider that
    has a transport but no client credentials issue no request at all and
    both fail; and when the endpoint answers 503 the one request is
    issued but no invocation resolves to a token. *)
Lemma burst_without_token :
  let s1 := run (create anonymousWorld) anonymousBurst (init anonymousWorld 0) in
  let s2 := run (create literalWorld) (burstArrives ++ burstCompletes (Fulfilled unavailable))
              (init literalWorld 0) in
  requests s1 = [] /\
  (exists e, callers s1 = [Done (Rejected e); Done (Rejected e)]) /\
  ~ (length (requests s1) = 1%nat /\
     exists tok, forall cl, cl ∈ callers s1 -> cl = Done (Fulfilled tok)) /\
  length (requests s2) = 1%nat /\
  callers s2 = [Done (Rejected (endpointError unavailable));
                Done (Rejected (endpointError unavailable));
                Done (Rejected (endpointError unavailable))] /\
  ~ (exists tok, forall cl, cl ∈ callers s2 -> cl = Done (Fulfilled tok)).
Proof.
  vm_compute. split; [done|]. split; [by eexists|]. split; [by intros [[=] _]|].
  split; [done|]. split; [done|]. intros [tok H].
  specialize (H _ (list_elem_of_here _ _)). discriminate H.
Qed.

(** C1, amended.  Take a provider with a transport, in a state where no
    invocation is pending and the cache holds nothing valid, and a world
    in which no fallback token resolves and the client credentials do.
    Let any number of invocations arrive and pass their fallback step, in
    any interleaving, before the transport answers ([arrivals]), and let
    the run then go on in any order, the transport answering [answer]
    ([completions]).  Then at every instant at most one request is
    outstanding; and once all N >= 1 invocations have settled, exactly one
    request has been issued and all N hold the same outcome, which is the
    access token whenever [answer] is a 2xx response carrying one. *)
Theorem single_flight (w : World) (s0 : State) (clientId clientSecret : string)
    (answer : Outcome Response) (arrivals completions : list Event) (N : nat) :
  let c := create w in
  reachable w s0 ->
  quiet s0 ->
  nonEmpty (getCachedToken s0) = None ->
  fetchImpl c <> None ->
  noFallback (world s0) ->
  credentials s0 clientId clientSecret ->
  Forall arrival arrivals ->
  Forall (completion answer) completions ->
  let s := run c (arrivals ++ completions) s0 in
  (forall n, (outstanding (run c (take n (arrivals ++ completions)) s0) <= 1)%nat) /\
  ((1 <= N)%nat ->
   length (callers s) = (length (callers s0) + N)%nat ->
   (forall cl, cl ∈ callers s -> exists r, cl = Done r) ->
   requests s = requests s0 ++ [tokenRequest c clientId clientSecret] /\
   exists r,
     (forall i, (length (callers s0) <= i < length (callers s))%nat ->
                callers s !! i = Some (Done r)) /\
     answers answer r).
Proof.
  intros c W%reachable_wf Hq Hst Hf Hfb Hcr Ha Hc s. fold c in W. split.
  - intros n. by apply wf_outstanding with (c := c), wf_run.
  - intros HN Hlen Hall.
    assert (I : inv c s0 clientId clientSecret answer True s).
    { unfold s. rewrite run_app. eapply inv_completions; eauto.
      eapply inv_late; eauto. eapply inv_arrivals; eauto. eapply inv_start; eauto. }
    eapply inv_settled; eauto.
Qed.

Lemma single_flight_witness :
  let c := create literalWorld in
  let answer := Fulfilled (tokenResponse "abc" (ENumber 3600)) in
  let s := run c (burstArrives ++ burstCompletes answer) (init literalWorld 0) in
  (reachable literalWorld (init literalWorld 0) /\
   quiet (init literalWorld 0) /\
   nonEmpty (getCachedToken (init literalWorld 0)) = None /\
   fetchImpl c <> None /\
   noFallback (world (init literalWorld 0)) /\
   credentials (init literalWorld 0) "client-1" "s3cret" /\
   Forall arrival burstArrives /\
   Forall (completion answer) (burstCompletes answer)) /\
  (forall n, (outstanding (run c (take n (burstArrives ++ burstCompletes answer))
                             (init literalWorld 0)) <= 1)%nat) /\
  requests s = [tokenRequest c "client-1" "s3cret"] /\
  exists r,
    (forall i, (0 <= i < 3)%nat -> callers s !! i = Some (Done r)) /\
    answers answer r.
Proof.
  intros c answer s.
  assert (H1 : reachable literalWorld (init literalWorld 0)) by (by exists 0, []).
  assert (H2 : quiet (init literalWorld 0)).
  { split; [done|]. intros cl Hcl. by apply elem_of_nil in Hcl. }
  assert (H3 : nonEmpty (getCachedToken (init literalWorld 0)) = None) by done.
  assert (H4 : fetchImpl c <> None) by done.
  assert (H5 : noFallback (world (init literalWorld 0))) by (intros n; by exists None).
  assert (H6 : credentials (init literalWorld 0) "client-1" "s3cret").
  { split; by eexists. }
  assert (H7 : Forall arrival burstArrives) by (by repeat constructor).
  assert (H8 : Forall (completion answer) (burstCompletes answer))
    by (by repeat constructor).
  split; [exact (conj H1 (conj H2 (conj H3 (conj H4 (conj H5 (conj H6 (conj H7 H8)))))))|].
  destruct (single_flight literalWorld (init literalWorld 0) "client-1" "s3cret" answer
              burstArrives (burstCompletes answer) 3 H1 H2 H3 H4 H5 H6 H7 H8) as [O S].
  split; [exact O|]. apply S.
  - lia.
  - reflexivity.
  - intros cl Hcl. change (callers (run (create literalWorld)
                                      (burstArrives ++ burstCompletes answer)
                                      (init literalWorld 0)))
      with [Done (Fulfilled "abc"); Done (Fulfilled "abc"); Done (Fulfilled "abc")] in Hcl.
    exists (Fulfilled "abc").
    repeat (apply elem_of_cons in Hcl as [->|Hcl]; [done|]). by apply elem_of_nil in Hcl.
Defined.

End ProviderSpec.

(** ** Beyond the specification

    Properties the code has that the specification does not state: of the
    header helpers, of [createAlvysClient] as a whole, and of the provider
    over its whole life. *)

Section MoreHeaderFacts.
Import Js Headers Client HeaderSpec HeadersInv.

Lemma foldl_write_other (writes : list (string * string)) (t : Headers) (k : string) :
  lower k <> k -> foldl write t writes !! k = t !! k.
Proof.
  intros Hk. revert t. induction writes as [|[n v] rest IH]; intros t; simpl; [done|].
  rewrite IH. unfold write, set; simpl. rewrite lookup_insert_ne; [done|].
  intros <-. by rewrite lower_idemp in Hk.
Qed.

Lemma foldl_write_lower (writes : list (string * string)) (t : Headers) (k : string) :
  lower k = k ->
  foldl write t writes !! k =
  match lastWrite k writes with Some v => Some v | None => t !! k end.
Proof. intros Hk. pose proof (foldl_write_lookup writes t k) as H. by rewrite Hk in H. Qed.

Lemma foldl_write_lowercase (writes : list (string * string)) (t : Headers) :
  lowercase t -> lowercase (foldl write t writes).
Proof.
  intros Ht k Hk. destruct (foldl_write_keys writes t k Hk) as [H|H]; [by apply Ht|done].
Qed.

Lemma lastWrite_list_to_map (l : list (string * string)) (k : string) :
  NoDup l.*1 -> (forall kv, kv ∈ l -> lower kv.1 = kv.1) -> lower k = k ->
  lastWrite k l = (list_to_map l : Headers) !! k.
Proof.
  intros ND Hl Hk. induction l as [|[n v] l IH]; [done|].
  simpl in *. apply NoDup_cons in ND as [Hn ND].
  rewrite IH; [|done|intros kv ?; apply Hl; by right].
  assert (Hn' : lower n = n) by (apply (Hl (n, v)); left).
  destruct (list_to_map l !! k) as [v'|] eqn:E.
  - rewrite lookup_insert_ne; [done|]. intros <-.
    apply Hn, list_elem_of_fmap. apply elem_of_list_to_map_2 in E. by exists (n, v').
  - rewrite Hn', Hk. rewrite lookup_insert. by repeat case_decide.
Qed.

Lemma lastWrite_map_to_list (h : Headers) (k : string) :
  lowercase h -> lower k = k -> lastWrite k (map_to_list h) = h !! k.
Proof.
  intros Hh Hk. rewrite lastWrite_list_to_map; [by rewrite list_to_map_to_list| | |done].
  - apply NoDup_fst_map_to_list.
  - intros [n v] Hin. apply elem_of_map_to_list in Hin. apply Hh. by eexists.
Qed.

Lemma foldl_write_map_to_list (h t : Headers) :
  lowercase h -> foldl write t (map_to_list h) = h ∪ t.
Proof.
  intros Hh. apply map_eq. intros k. rewrite lookup_union.
  destruct (decide (lower k = k)) as [Hk|Hk].
  - rewrite foldl_write_lower, lastWrite_map_to_list by done.
    destruct (h !! k), (t !! k); done.
  - rewrite foldl_write_other by done.
    destruct (h !! k) eqn:E; [|by destruct (t !! k)].
    destruct Hk. apply Hh. by eexists.
Qed.

Lemma present_headersToObject (h : Headers) :
  omap present (headersToObject h) = map_to_list h.
Proof.
  rewrite headersToObject_map. induction (map_to_list h) as [|[k v] l IH]; [done|].
  rewrite fmap_cons. cbn [omap list_omap]. unfold present at 1. cbn [fst snd String_].
  f_equal. exact IH.
Qed.

Lemma headersToObject_merge (h : Headers) :
  lowercase h ->
  mergeIntoHeaders ∅ (Some (HIObject (headersToObject h))) = h /\
  mergeIntoHeaders ∅ (Some (HIArray (headersToObject h))) = h.
Proof.
  intros Hh.
  assert (E : foldl write ∅ (map_to_list h) = h).
  { rewrite foldl_write_map_to_list by done. apply (right_id_L ∅ (∪)). }
  split; by rewrite mergeIntoHeaders_written; simpl; rewrite present_headersToObject.
Qed.

Lemma headersToObject_names (h : Headers) :
  NoDup (headersToObject h).*1 /\ length (headersToObject h) = size h.
Proof.
  split.
  - rewrite headersToObject_map, <- list_fmap_compose. apply (NoDup_fst_map_to_list h).
  - by rewrite headersToObject_map, length_fmap, length_map_to_list.
Qed.

Lemma lowercase_singleton (k v : string) : lower k = k -> lowercase ({[ k := v ]} : Headers).
Proof. intros Hk k' [v' Hv]. by apply lookup_singleton_Some in Hv as [<- _]. Qed.

(** X1.  [mergeIntoHeaders] skips entries whose value is [null] or
    [undefined]: a name under which the source holds only such entries
    keeps the value it had in the target, an array or object source made
    of such entries only leaves the target as it was, and so does a
    missing source. *)
Theorem mergeIntoHeaders_blank (target : Headers) (entries : list (string * HeaderValue)) :
  (forall name,
     (forall kv, kv ∈ entries -> lower kv.1 = lower name -> blank kv) ->
     mergeIntoHeaders target (Some (HIObject entries)) !! lower name = target !! lower name /\
     mergeIntoHeaders target (Some (HIArray entries)) !! lower name = target !! lower name) /\
  (Forall blank entries ->
   mergeIntoHeaders target (Some (HIObject entries)) = target /\
   mergeIntoHeaders target (Some (HIArray entries)) = target) /\
  mergeIntoHeaders target None = target.
Proof.
  assert (A : forall entries name,
            (forall kv, kv ∈ entries -> lower kv.1 = lower name -> blank kv) ->
            lastWrite name (omap present entries) = None).
  { clear. induction entries as [|[n v] l IH]; intros name H; [done|].
    assert (IH' : lastWrite name (omap present l) = None)
      by (apply IH; intros kv ?; apply H; by right).
    pose proof (H (n, v) (list_elem_of_here _ _)) as Hv. unfold blank in Hv. simpl in Hv.
    cbn [omap list_omap]. unfold present at 1. cbn [fst snd].
    destruct v; try exact IH'; cbn [lastWrite]; rewrite IH'; case_decide; try done;
      destruct (Hv ltac:(done)) as [[=]|[=]]. }
  assert (B : forall entries, Forall blank entries -> omap present entries = []).
  { clear. induction 1 as [|[n v] l [E|E] _ IH]; [done| |]; simpl in E; subst;
      cbn [omap list_omap]; unfold present at 1; cbn [fst snd]; exact IH. }
  split; [|split; [|done]].
  - intros name H. rewrite !mergeIntoHeaders_written, !foldl_write_lookup. simpl.
    by rewrite A.
  - intros H. rewrite !mergeIntoHeaders_written. simpl. by rewrite B.
Qed.

(** X2.  Merging the same source a second time changes nothing. *)
Theorem mergeIntoHeaders_idempotent (target : Headers) (source : option HeaderInput) :
  mergeIntoHeaders (mergeIntoHeaders target source) source = mergeIntoHeaders target source.
Proof.
  rewrite !mergeIntoHeaders_written. apply map_eq. intros k.
  destruct (decide (lower k = k)) as [Hk|Hk].
  - rewrite !foldl_write_lower by done. by destruct (lastWrite k (written source)).
  - by rewrite !foldl_write_other.
Qed.

(** X3.  Merging a [Headers] instance (whose names are in lower case, as
    the platform keeps them) gives the union of the two collections in
    which the source wins; and lower-case names stay lower-case. *)
Theorem mergeIntoHeaders_instance (target h : Headers) :
  lowercase h ->
  mergeIntoHeaders target (Some (HIHeaders h)) = h ∪ target /\
  (lowercase target -> lowercase (mergeIntoHeaders target (Some (HIHeaders h)))).
Proof.
  intros Hh. rewrite mergeIntoHeaders_written. simpl. split.
  - by apply foldl_write_map_to_list.
  - by apply foldl_write_lowercase.
Qed.

Lemma mergeIntoHeaders_instance_witness :
  lowercase Situations.acceptHeaders /\
  mergeIntoHeaders Situations.traceTarget (Some (HIHeaders Situations.acceptHeaders))
    = Situations.acceptHeaders ∪ Situations.traceTarget.
Proof.
  assert (H : lowercase Situations.acceptHeaders) by (by apply lowercase_singleton).
  split; [exact H|].
  exact (proj1 (mergeIntoHeaders_instance Situations.traceTarget Situations.acceptHeaders H)).
Defined.



Lemma buildHeaders_map (options : AlvysClientOptions) (requestHeaders : option HeaderInput)
    (c c1 c2 : Calls) (defaults : option HeaderInput) (token : option string) :
  resolveDefaultHeaders options c = (Fulfilled defaults, c1) ->
  resolveAccessToken options c1 = (Fulfilled token, c2) ->
  exists h : Headers,
    h = foldl write ∅ (written defaults ++ authorization token ++ written requestHeaders) /\
    lowercase h /\
    buildHeaders options requestHeaders c
      = (Fulfilled (if bool_decide (h <> ∅) then Some (headersToObject h) else None), c2).
Proof.
  intros H1 H2. eexists. split; [reflexivity|]. split.
  - apply foldl_write_lowercase. intros k [v Hv]. by rewrite lookup_empty in Hv.
  - by apply (buildHeaders_run _ _ c c1 c2).
Qed.





End MoreHeaderFacts.

Section ClientFactoryFacts.
Import Js Headers Client HeaderSpec ClientFactory.
Context {Fetch Serializer Result : Type}.
Variable initClient : @ClientOptions Fetch Serializer -> @RawClient Result.

Lemma wrap_run {Url R : Type} (options : AlvysClientOptions) (fn : Url -> option OptionBag -> R)
    (url : Url) (bag : option OptionBag) (c : Calls) :
  wrap options fn (Some (url, bag)) c =
    match buildHeaders options (headersOf bag) c with
    | (Fulfilled (Some hs), c') => (Fulfilled (fn url (Some (withHeaders bag hs))), c')
    | (Fulfilled None, c') => (Fulfilled (fn url bag), c')
    | (Rejected e, c') => (Rejected e, c')
    end.
Proof.
  unfold wrap, mbind, M_bind, bind, mret, M_ret, ret.
  destruct (buildHeaders _ _ _) as [[[hs|]|e] c']; try done. by destruct bag.
Qed.

Lemma buildHeaders_outcome (options : AlvysClientOptions) (requestHeaders : option HeaderInput)
    (c : Calls) :
  match resolveDefaultHeaders options c with
  | (Rejected e, c1) => buildHeaders options requestHeaders c = (Rejected e, c1)
  | (Fulfilled d, c1) =>
      match resolveAccessToken options c1 with
      | (Rejected e, c2) => buildHeaders options requestHeaders c = (Rejected e, c2)
      | (Fulfilled t, c2) => exists o, buildHeaders options requestHeaders c = (Fulfilled o, c2)
      end
  end.
Proof.
  unfold buildHeaders, mbind, M_bind, bind, mret, M_ret, ret.
  destruct (resolveDefaultHeaders options c) as [[d|e] c1]; [|done].
  destruct (resolveAccessToken options c1) as [[t|e] c2]; [|done]. by eexists.
Qed.






End ClientFactoryFacts.

Section ClientFactoryExamples.
Import Js Headers Client ClientFactory.

End ClientFactoryExamples.

Section LifecycleFacts.
Import Js Provider Lifecycle ProviderScenario Situations.

Lemma count_app {A : Type} (p : A -> bool) (l k : list A) :
  count p (l ++ k) = (count p l + count p k)%nat.
Proof. induction l as [|x l IH]; simpl; [done|]. rewrite IH. lia. Qed.

Lemma count_insert {A : Type} (p : A -> bool) (l : list A) (i : nat) (x y : A) :
  l !! i = Some x ->
  (count p (<[i := y]> l) + (if p x then 1 else 0)
   = count p l + (if p y then 1 else 0))%nat.
Proof.
  revert i. induction l as [|z l IH]; intros [|i] H; try done; simpl in *.
  - injection H as ->. lia.
  - specialize (IH i H). lia.
Qed.

Lemma count_length {A : Type} (p : A -> bool) (l : list A) : (count p l <= length l)%nat.
Proof. induction l as [|x l IH]; simpl; [done|]. destruct (p x); lia. Qed.

Lemma reachable_ind' (w : World) (P : State -> Prop) :
  (forall t, P (init w t)) ->
  (forall e s, reachable w s -> P s -> P (step (create w) e s)) ->
  forall s, reachable w s -> P s.
Proof.
  intros H0 HS s (t & events & ->). induction events as [|e events IH] using rev_ind.
  - apply H0.
  - rewrite run_app. apply HS; [by exists t, events|exact IH].
Qed.

(** Only three events touch the callers. *)
Lemma callers_step (c : Closure) (e : Event) (s : State) :
  match e with
  | Invoke | FallbackResolved _ | InFlightSettled _ => True
  | _ => callers (step c e s) = callers s
  end.
Proof.
  destruct e; try done; cbn [step]; repeat case_match; try done.
Qed.

(** Callers that wait on a refresh wait on one that exists. *)
Lemma waiting_exists (w : World) (s : State) :
  reachable w s ->
  forall i pid, callers s !! i = Some (AwaitInFlight pid) -> (pid < length (flights s))%nat.
Proof.
  intros R. pattern s. revert s R. apply reachable_ind'; [by intros t i pid|].
  intros e s R IH i pid. pose proof (reachable_wf w s R) as W.
  pose proof (flights_grow (create w) e s) as G.
  assert (K : callers s !! i = Some (AwaitInFlight pid) ->
              (pid < length (flights (step (create w) e s)))%nat).
  { intros H. specialize (IH i pid H). lia. }
  pose proof (callers_step (create w) e s) as C.
  destruct e as [|i0|p|p r|p|p|i0|ms|w']; try (by rewrite C); clear C; cbn [step] in *;
    try exact K.
  - destruct (resolveValue _ _). cbn [callers flights].
    rewrite lookup_app_Some. intros [H|[_ H]]; [by apply (IH i)|].
    by destruct (i - length (callers s))%nat as [|[|?]].
  - destruct (callers s !! i0) as [[v| |]|] eqn:E; try exact K.
    unfold afterFallback in *. destruct v as [v|err].
    + destruct (nonEmpty (nullish v _)).
      { unfold setCaller; cbn [callers flights].
        intros H. destruct (decide (i = i0)) as [->|N].
        - rewrite list_lookup_insert_eq in H by (by eapply lookup_lt_Some). done.
        - rewrite list_lookup_insert_ne in H by done. by apply IH in H. }
      destruct (nonEmpty (getCachedToken s)).
      { unfold setCaller; cbn [callers flights].
        intros H. destruct (decide (i = i0)) as [->|N].
        - rewrite list_lookup_insert_eq in H by (by eapply lookup_lt_Some). done.
        - rewrite list_lookup_insert_ne in H by done. by apply IH in H. }
      destruct (inFlight s) as [p|] eqn:F.
      * unfold setCaller; cbn [callers flights].
        intros H. destruct (decide (i = i0)) as [->|N].
        -- rewrite list_lookup_insert_eq in H by (by eapply lookup_lt_Some).
           injection H as <-. destruct (wf_busy _ _ W p F) as [t Ht].
           by eapply lookup_lt_Some.
        -- rewrite list_lookup_insert_ne in H by done. by apply IH in H.
      * destruct (requestToken _ _). cbn [callers flights].
        rewrite length_app. simpl.
        intros H. destruct (decide (i = i0)) as [->|N].
        -- rewrite list_lookup_insert_eq in H by (by eapply lookup_lt_Some).
           injection H as <-. lia.
        -- rewrite list_lookup_insert_ne in H by done. apply IH in H. lia.
    + unfold setCaller; cbn [callers flights].
      intros H. destruct (decide (i = i0)) as [->|N].
      * rewrite list_lookup_insert_eq in H by (by eapply lookup_lt_Some). done.
      * rewrite list_lookup_insert_ne in H by done. by apply IH in H.
  - destruct (callers s !! i0) as [[v|p|]|] eqn:E; try exact K.
    destruct (flights s !! p) as [[t [r|]]|]; try exact K.
    unfold setCaller; cbn [callers flights].
    intros H. destruct (decide (i = i0)) as [->|N].
    + rewrite list_lookup_insert_eq in H by (by eapply lookup_lt_Some). done.
    + rewrite list_lookup_insert_ne in H by done. by apply IH in H.
Qed.

Lemma waiting_on_existing (w : World) (s : State) :
  reachable w s ->
  forall i pid, callers s !! i = Some (AwaitInFlight pid) ->
                exists f, flights s !! pid = Some f /\
                          (finished f \/ inFlight s = Some pid).
Proof.
  intros R i pid H. pose proof (reachable_wf w s R) as W.
  pose proof (waiting_exists w s R i pid H) as L.
  destruct (lookup_lt_is_Some_2 _ _ L) as [f Hf]. exists f. split; [done|].
  destruct (decide (inFlight s = Some pid)); [by right|left]. by eapply wf_idle.
Qed.

(** X11.  In every state a provider can reach there is at most one
    refresh that has not finished, it is the one the in-flight marker
    refers to, and at most one request is outstanding; when the marker is
    clear every refresh has finished; and every invocation that waits,
    waits on a refresh that exists and either has finished or is the one
    in flight. *)
Theorem one_refresh_at_a_time (w : World) (s : State) :
  reachable w s ->
  (outstanding s <= 1)%nat /\
  (forall j k f g, flights s !! j = Some f -> flights s !! k = Some g ->
                   ~ finished f -> ~ finished g -> j = k /\ inFlight s = Some j) /\
  (inFlight s = None -> forall f, f ∈ flights s -> finished f) /\
  (forall pid, inFlight s = Some pid ->
               exists t, flights s !! pid = Some {| task := t; promise := None |}) /\
  (forall i pid, callers s !! i = Some (AwaitInFlight pid) ->
                 exists f, flights s !! pid = Some f /\
                           (finished f \/ inFlight s = Some pid)).
Proof.
  intros R. pose proof (reachable_wf w s R) as W.
  split; [by apply (wf_outstanding (create w))|]. split; [|split; [|split]].
  - intros j k f g Hj Hk Nf Ng.
    destruct (decide (inFlight s = Some j)) as [Ej|Ej];
      [|by destruct Nf; eapply wf_idle].
    destruct (decide (inFlight s = Some k)) as [Ek|Ek];
      [|by destruct Ng; eapply wf_idle].
    split; [congruence|done].
  - intros E f [j Hj]%list_elem_of_lookup. eapply wf_idle; [done..|]. by rewrite E.
  - by apply (wf_busy (create w)).
  - by apply (waiting_on_existing w).
Qed.

Lemma one_refresh_at_a_time_witness :
  let s := run (create literalWorld) (burstArrives ++ [FetchSettled 0 (Fulfilled unavailable)])
             (init literalWorld 0) in
  reachable literalWorld s /\
  inFlight s = Some 0%nat /\
  (outstanding s <= 1)%nat /\
  (forall i pid, callers s !! i = Some (AwaitInFlight pid) ->
                 exists f, flights s !! pid = Some f /\
                           (finished f \/ inFlight s = Some pid)).
Proof.
  intros s.
  assert (R : reachable literalWorld s)
    by (by exists 0, (burstArrives ++ [FetchSettled 0 (Fulfilled unavailable)])).
  destruct (one_refresh_at_a_time literalWorld s R) as (E1 & _ & _ & _ & E5).
  split; [exact R|]. split; [reflexivity|]. split; [exact E1|exact E5].
Defined.

Lemma resolveValue_count {T : Type} (value : ValueOrFactory T) (n : nat) :
  (n <= (resolveValue value n).2 <= S n)%nat.
Proof. destruct value; simpl; lia. Qed.

Lemma bounded_step (c : Closure) (e : Event) (s : State) :
  bounded s -> bounded (step c e s).
Proof.
  unfold bounded. intros (B1 & B2 & B3 & B4 & B5).
  destruct e as [|i|p|p r|p|p|i|ms|w']; cbn [step]; try done.
  - pose proof (resolveValue_count (Opts.fallbackToken (options (world s)))
                  (fallbackTokenCalls (calls s))) as L.
    destruct (resolveValue _ _) as [v n]. cbn [requests flights callers calls
      clientIdCalls clientSecretCalls fallbackTokenCalls snd] in *.
    rewrite count_app, length_app. simpl. lia.
  - destruct (callers s !! i) as [[v| |]|] eqn:E; try done.
    assert (P : forall cl, passed cl = true ->
                (count passed (<[i := cl]> (callers s)) = S (count passed (callers s)))%nat).
    { intros cl Hcl. pose proof (count_insert passed _ i _ cl E) as K.
      rewrite Hcl in K. simpl in K. lia. }
    unfold afterFallback. destruct v as [v|err].
    + destruct (nonEmpty (nullish v _)).
      { unfold setCaller; cbn [requests flights callers calls].
        rewrite P, length_insert by done. lia. }
      destruct (nonEmpty (getCachedToken s)).
      { unfold setCaller; cbn [requests flights callers calls].
        rewrite P, length_insert by done. lia. }
      destruct (inFlight s).
      { unfold setCaller; cbn [requests flights callers calls].
        rewrite P, length_insert by done. lia. }
      unfold requestToken. destruct (fetchImpl c).
      * pose proof (resolveValue_count (Opts.clientId (options (world s)))
                      (clientIdCalls (calls s))) as L1.
        pose proof (resolveValue_count (Opts.clientSecret (options (world s)))
                      (clientSecretCalls (calls s))) as L2.
        destruct (resolveValue (Opts.clientId _) _) as [id n1].
        destruct (resolveValue (Opts.clientSecret _) _) as [sec n2].
        cbn [requests flights callers calls clientIdCalls clientSecretCalls
               fallbackTokenCalls snd] in *.
        rewrite P, length_insert, count_app, length_app by done. simpl. lia.
      * cbn [requests flights callers calls clientIdCalls clientSecretCalls
               fallbackTokenCalls snd] in *.
        rewrite P, length_insert, count_app, length_app by done. simpl. lia.
    + unfold setCaller; cbn [requests flights callers calls].
      rewrite P, length_insert by done. lia.
  - destruct (flights s !! p) as [[[id sec| | | |] [|]]|] eqn:E; try done.
    pose proof (count_insert resolving _ p _
                  {| task := (afterCredentials c (world s) id sec).1; promise := None |} E) as K.
    assert (L : resolving {| task := (afterCredentials c (world s) id sec).1;
                             promise := None |} = false /\
                (length (afterCredentials c (world s) id sec).2 <= 1)%nat).
    { unfold afterCredentials. destruct id as [id|]; [|(split; [done|simpl; lia])].
      destruct sec as [sec|]; [|(split; [done|simpl; lia])].
      destruct (nonEmpty (nullish id _)); [|(split; [done|simpl; lia])].
      destruct (nonEmpty (nullish sec _)); (split; [done|simpl; lia]). }
    destruct L as [L1 L2]. rewrite L1 in K. simpl in K.
    destruct (afterCredentials _ _ _ _) as [t sent].
    cbn [requests flights callers calls fst snd] in *.
    rewrite length_app, length_insert. lia.
  - destruct (flights s !! p) as [[[id sec| | | |] [|]]|] eqn:E; try done.
    pose proof (count_insert resolving _ p _ {| task := afterFetch r; promise := None |} E) as K.
    assert (L : resolving {| task := afterFetch r; promise := None |} = false).
    { unfold afterFetch. destruct r as [resp|]; [|done]. by destruct (ok resp). }
    rewrite L in K. simpl in K.
    unfold setTask. cbn [requests flights callers calls]. rewrite length_insert. lia.
  - destruct (flights s !! p) as [[[id sec| |resp|resp|] [|]]|] eqn:E; try done.
    + pose proof (count_insert resolving _ p _
                    {| task := Settled (Rejected (endpointError resp)); promise := None |} E) as K.
      simpl in K.
      unfold setTask. cbn [requests flights callers calls]. rewrite length_insert. lia.
    + destruct (afterJson c s (json resp)) as [o ca].
      pose proof (count_insert resolving _ p _ {| task := Settled o; promise := None |} E) as K.
      simpl in K.
      cbn [requests flights callers calls]. rewrite length_insert. lia.
  - destruct (flights s !! p) as [[[id sec| |resp|resp|o] [|]]|] eqn:E; try done.
    pose proof (count_insert resolving _ p _ {| task := Settled o; promise := Some o |} E) as K.
    simpl in K.
    cbn [requests flights callers calls]. rewrite length_insert. lia.
  - destruct (callers s !! i) as [[v|p|]|] eqn:E; try done.
    destruct (flights s !! p) as [[t [o|]]|]; try done.
    pose proof (count_insert passed _ i _ (Done o) E) as K. simpl in K.
    unfold setCaller; cbn [requests flights callers calls]. rewrite length_insert. lia.
Qed.

(** X12.  A provider never sends more requests than it has started
    refreshes, and never starts more refreshes than it has had invocations
    pass their fallback step; each credential factory has been invoked at
    most once per refresh and the fallback factory at most once per
    invocation. *)
Theorem resource_bounds (w : World) (s : State) :
  reachable w s ->
  (length (requests s) <= length (flights s) <= length (callers s))%nat /\
  (length (requests s) + count resolving (flights s) <= length (flights s))%nat /\
  (length (flights s) <= count passed (callers s))%nat /\
  (clientIdCalls (calls s) <= length (flights s))%nat /\
  (clientSecretCalls (calls s) <= length (flights s))%nat /\
  (fallbackTokenCalls (calls s) <= length (callers s))%nat.
Proof.
  intros R. assert (B : bounded s).
  { pattern s. revert s R. apply reachable_ind'.
    - intros t. unfold bounded. simpl. lia.
    - intros e s _. apply bounded_step. }
  destruct B as (B1 & B2 & B3 & B4 & B5).
  pose proof (count_length passed (callers s)). lia.
Qed.

Lemma resource_bounds_witness :
  let s := run (create vaultWorld)
             (oneCall 0 0 (Fulfilled (tokenResponse "abc" (ENumber 3600))) ++ [Invoke])
             (init vaultWorld 0) in
  reachable vaultWorld s /\
  length (callers s) = 2%nat /\
  (length (requests s) <= length (flights s) <= length (callers s))%nat /\
  (clientIdCalls (calls s) <= length (flights s))%nat.
Proof.
  intros s.
  assert (R : reachable vaultWorld s)
    by (by exists 0, (oneCall 0 0 (Fulfilled (tokenResponse "abc" (ENumber 3600))) ++ [Invoke])).
  destruct (resource_bounds vaultWorld s R) as (E1 & _ & _ & E4 & _).
  split; [exact R|]. split; [reflexivity|]. split; [exact E1|exact E4].
Defined.

(** X13.  Every request a provider sends is a [POST] to the token
    endpoint with the single header [content-type: application/json]; its
    body asks for [client_credentials] with a non-empty client id and a
    non-empty client secret, has no member besides the five of the
    payload, and carries no empty [scope]. *)
Theorem request_shape (w : World) (s : State) (req : Request) :
  reachable w s ->
  req ∈ requests s ->
  url req = AUTH_TOKEN_URL /\
  method req = "POST" /\
  headers req = {[ "content-type" := "application/json" ]} /\
  body req !! "grant_type" = Some "client_credentials" /\
  (exists id secret,
     id <> "" /\ secret <> "" /\
     body req !! "client_id" = Some id /\ body req !! "client_secret" = Some secret) /\
  (forall key, is_Some (body req !! key) -> key ∈ payloadKeys) /\
  body req !! "scope" <> Some "".
Proof.
  intros (t & events & ->) H.
  apply requests_run in H as [H|(id & secret & Hid & Hsec & ->)]; [by apply elem_of_nil in H|].
  destruct (tokenRequest_fields (create w) id secret) as (_ & U & _ & Sc & I & Se & G).
  split; [done|]. split; [done|]. split; [done|]. split; [done|].
  split; [by exists id, secret|]. split.
  - intros key [v Hv]. unfold tokenRequest, payload in Hv. cbn [body] in Hv.
    unfold payloadKeys. rewrite !elem_of_cons.
    destruct (nonEmpty (scope (create w))); 
      repeat (apply lookup_insert_Some in Hv as [[<- _]|[_ Hv]]; [tauto|]);
      by rewrite lookup_empty in Hv.
  - rewrite Sc. intros E. by apply nonEmpty_Some in E as [_ ?].
Qed.

Lemma request_shape_witness :
  let s := run (create literalWorld) [Invoke; FallbackResolved 0; CredentialsResolved 0]
             (init literalWorld 0) in
  let req := tokenRequest (create literalWorld) "client-1" "s3cret" in
  reachable literalWorld s /\
  req ∈ requests s /\
  url req = AUTH_TOKEN_URL /\
  method req = "POST" /\
  body req !! "scope" <> Some "".
Proof.
  intros s req.
  assert (R : reachable literalWorld s)
    by (by exists 0, [Invoke; FallbackResolved 0; CredentialsResolved 0]).
  assert (I : req ∈ requests s) by (apply list_elem_of_here).
  destruct (request_shape literalWorld s req R I) as (E1 & E2 & _ & _ & _ & _ & E7).
  split; [exact R|]. split; [exact I|]. split; [exact E1|]. split; [exact E2|exact E7].
Defined.

Lemma grounded_step (c : Closure) (e : Event) (s : State) :
  fetchImpl c = None -> grounded s -> grounded (step c e s).
Proof.
  intros Hc (G1 & G2 & G3 & G4 & G5). unfold grounded.
  destruct e as [|i|p|p r|p|p|i|ms|w']; cbn [step]; try done.
  - by destruct (resolveValue _ _).
  - destruct (callers s !! i) as [[v| |]|] eqn:E; try done.
    unfold afterFallback. destruct v as [v|err]; [|done].
    destruct (nonEmpty (nullish v _)); [done|].
    destruct (nonEmpty (getCachedToken s)); [done|].
    destruct (inFlight s); [done|].
    unfold requestToken. rewrite Hc. cbn [requests cache calls flights].
    split; [done|]. split; [done|]. split; [done|]. split; [done|].
    intros j f. rewrite lookup_app_Some. intros [H|[_ H]]; [by eapply G5|].
    destruct (j - length (flights s))%nat as [|[|?]]; [|done..]. by injection H as <-.
  - destruct (flights s !! p) as [[t pr]|] eqn:E; [|done].
    pose proof (G5 _ _ E) as T. simpl in T. by subst t.
  - destruct (flights s !! p) as [[t pr]|] eqn:E; [|done].
    pose proof (G5 _ _ E) as T. simpl in T. by subst t.
  - destruct (flights s !! p) as [[t pr]|] eqn:E; [|done].
    pose proof (G5 _ _ E) as T. simpl in T. by subst t.
  - destruct (flights s !! p) as [[t pr]|] eqn:E; [|done].
    pose proof (G5 _ _ E) as T. simpl in T. subst t. destruct pr; [done|].
    cbn [requests cache calls flights].
    split; [done|]. split; [done|]. split; [done|]. split; [done|].
    intros j f. destruct (decide (j = p)) as [->|N].
    + rewrite list_lookup_insert_eq by (by eapply lookup_lt_Some). by intros [= <-].
    + rewrite list_lookup_insert_ne by done. apply G5.
  - destruct (callers s !! i) as [[v|p|]|] eqn:E; try done.
    by destruct (flights s !! p) as [[t [o|]]|].
Qed.

(** X14.  A provider created without a transport never sends a
    request, never fills its cache and never invokes a credential factory,
    whatever happens afterwards (a transport that appears later is not
    picked up): every refresh it starts fails with the error that asks for
    a fetch implementation, and so does every invocation waiting on
    one. *)
Theorem no_transport (w : World) (s : State) :
  fetchImpl (create w) = None ->
  reachable w s ->
  requests s = [] /\ cache s = None /\
  clientIdCalls (calls s) = 0%nat /\ clientSecretCalls (calls s) = 0%nat /\
  (forall j f, flights s !! j = Some f -> task f = Settled (Rejected fetchRequired)) /\
  (forall i pid, callers s !! i = Some (AwaitInFlight pid) ->
     callers (run (create w) [FinallyRuns pid; InFlightSettled i] s) !! i
       = Some (Done (Rejected fetchRequired))).
Proof.
  intros Hc R. assert (G : grounded s).
  { pattern s. revert s R. apply reachable_ind'.
    - intros t. unfold grounded. simpl. by repeat split.
    - intros e s _. by apply grounded_step. }
  destruct G as (G1 & G2 & G3 & G4 & G5).
  split; [done|]. split; [done|]. split; [done|]. split; [done|]. split; [done|].
  intros i pid H.
  destruct (waiting_on_existing w s R i pid H) as (f & Hf & Fin).
  pose proof (G5 _ _ Hf) as T. destruct f as [t pr]. simpl in T. subst t.
  unfold run. cbn [foldl]. cbn [step]. rewrite Hf.
  destruct pr as [o|].
  - destruct Fin as [(r & [= <- <-])|Fin].
    + cbn [step]. rewrite H, Hf. unfold setCaller. cbn [callers].
      apply list_lookup_insert_eq. by eapply lookup_lt_Some.
    + pose proof (reachable_wf w s R) as W.
      destruct (wf_busy _ _ W pid Fin) as [t Ht]. congruence.
  - cbn [step callers flights]. rewrite H.
    rewrite list_lookup_insert_eq by (by eapply lookup_lt_Some).
    unfold setCaller. cbn [callers].
    apply list_lookup_insert_eq. by eapply lookup_lt_Some.
Qed.

Lemma no_transport_witness :
  let s := run (create offlineWorld)
             [Invoke; WorldChanges literalWorld; FallbackResolved 0] (init offlineWorld 0) in
  fetchImpl (create offlineWorld) = None /\
  reachable offlineWorld s /\
  callers s !! 0%nat = Some (AwaitInFlight 0) /\
  requests s = [] /\
  callers (run (create offlineWorld) [FinallyRuns 0; InFlightSettled 0] s) !! 0%nat
    = Some (Done (Rejected fetchRequired)).
Proof.
  intros s.
  assert (T : fetchImpl (create offlineWorld) = None) by reflexivity.
  assert (R : reachable offlineWorld s)
    by (by exists 0, [Invoke; WorldChanges literalWorld; FallbackResolved 0]).
  assert (H : callers s !! 0%nat = Some (AwaitInFlight 0)) by reflexivity.
  destruct (no_transport offlineWorld s T R) as (E1 & _ & _ & _ & _ & E6).
  split; [exact T|]. split; [exact R|]. split; [exact H|]. split; [exact E1|].
  exact (E6 0%nat 0%nat H).
Defined.

Lemma served_step (c : Closure) (w : World) (tok : string) (e : Event) (s : State) :
  staticFallback w tok -> unchanging e -> served w tok s -> served w tok (step c e s).
Proof.
  intros [Ht Hw] He (S1 & S2 & S3 & S4 & S5 & S6 & S7). unfold served.
  destruct e as [|i|p|p r|p|p|i|ms|w']; cbn [step]; try done.
  - rewrite S1, S6. cbn [fallbackTokenCalls clientIdCalls clientSecretCalls].
    assert (exists v, resolveValue (Opts.fallbackToken (options w)) 0 = (Fulfilled v, 0%nat) /\
                      nonEmpty (nullish v (getEnv w "ALVYS_TOKEN")) = Some tok)
      as (v & -> & Hv).
    { destruct Hw as [->|[-> E]].
      - exists (Some tok). split; [done|]. by apply nonEmpty_Some.
      - exists None. split; [done|]. by apply nonEmpty_Some. }
    cbn [world flights requests cache inFlight calls callers].
    repeat (split; [done|]).
    intros i cl. rewrite lookup_app_Some. intros [H|[_ H]]; [by eapply S7|].
    destruct (i - length (callers s))%nat as [|[|?]]; [|done..]. injection H as <-.
    left. by exists v.
  - destruct (callers s !! i) as [[v| |]|] eqn:E; try done.
    destruct (S7 _ _ E) as [(v' & [= ->] & Hv)|[=]].
    unfold afterFallback. rewrite S1, Hv.
    unfold setCaller. cbn [world flights requests cache inFlight calls callers].
    repeat (split; [done|]).
    intros j cl. destruct (decide (j = i)) as [->|N].
    + rewrite list_lookup_insert_eq by (by eapply lookup_lt_Some). intros [= <-]. by right.
    + rewrite list_lookup_insert_ne by done. apply S7.
  - by rewrite S2, lookup_nil.
  - by rewrite S2, lookup_nil.
  - by rewrite S2, lookup_nil.
  - by rewrite S2, lookup_nil.
  - destruct (callers s !! i) as [[v|p|]|] eqn:E; try done.
    by rewrite S2, lookup_nil.
Qed.

(** X15.  A provider whose fallback token is a fixed non-empty string
    (given in the options, or absent there and set in [ALVYS_TOKEN])
    answers every invocation with that string and does nothing else, as
    long as the world does not change: no refresh, no request, no cache
    entry, no factory call. *)
Theorem static_fallback (w : World) (tok : string) (t : Z) (events : list Event) :
  staticFallback w tok ->
  Forall unchanging events ->
  let s := run (create w) events (init w t) in
  flights s = [] /\ requests s = [] /\ cache s = None /\ inFlight s = None /\
  calls s = {| fallbackTokenCalls := 0; clientIdCalls := 0; clientSecretCalls := 0 |} /\
  (forall i r, callers s !! i = Some (Done r) -> r = Fulfilled tok) /\
  (forall i cl, callers s !! i = Some cl -> cl <> Done (Fulfilled tok) ->
     callers (step (create w) (FallbackResolved i) s) !! i = Some (Done (Fulfilled tok))).
Proof.
  intros Hw He s. assert (V : served w tok s).
  { unfold s. clear s. induction events as [|e events IH] using rev_ind.
    - unfold served. simpl. by repeat split.
    - apply Forall_app in He as [He1 He2]. rewrite run_app.
      apply served_step; [done|by inversion He2|by apply IH]. }
  pose proof V as (S1 & S2 & S3 & S4 & S5 & S6 & S7).
  repeat (split; [done|]). split.
  - intros i r H. by destruct (S7 _ _ H) as [(v & [=] & _)|[= ->]].
  - intros i cl H N. destruct (S7 _ _ H) as [(v & -> & Hv)| -> ]; [|done].
    cbn [step]. rewrite H. unfold afterFallback. rewrite S1, Hv.
    unfold setCaller. cbn [callers].
    apply list_lookup_insert_eq. by eapply lookup_lt_Some.
Qed.

Lemma static_fallback_witness :
  let events := [Invoke; Invoke; FallbackResolved 1; ClockAdvances 7; CredentialsResolved 0] in
  let s := run (create manualWorld) events (init manualWorld 0) in
  staticFallback manualWorld "manual-token" /\
  Forall unchanging events /\
  callers s = [AwaitFallback (Fulfilled None); Done (Fulfilled "manual-token")] /\
  flights s = [] /\ requests s = [] /\ cache s = None.
Proof.
  intros events s.
  assert (W : staticFallback manualWorld "manual-token").
  { split; [done|]. right. by split. }
  assert (U : Forall unchanging events) by (repeat constructor).
  destruct (static_fallback manualWorld "manual-token" 0 events W U) as (E1 & E2 & E3 & _).
  split; [exact W|]. split; [exact U|]. split; [reflexivity|].
  split; [exact E1|]. split; [exact E2|exact E3].
Defined.

Lemma elapsed_nonneg (events : list Event) : 0 <= elapsed events.
Proof. induction events as [|[] events IH]; simpl; lia. Qed.

Lemma elapsed_cons (e : Event) (events : list Event) :
  elapsed (e :: events) = elapsed [e] + elapsed events.
Proof. destruct e; simpl; lia. Qed.

Lemma now_step (c : Closure) (e : Event) (s : State) :
  now (step c e s) = now s + elapsed [e].
Proof.
  destruct e; cbn [step elapsed foldr]; repeat case_match; unfold afterFallback, setCaller, setTask;
    repeat case_match; simpl; lia.
Qed.

Lemma window_step (c : Closure) (e : Event) (s : State) (entry : TokenCacheEntry) (n0 : nat) :
  wf c s ->
  inFlight s = None -> cache s = Some entry ->
  (forall i pid, (n0 <= i)%nat -> callers s !! i <> Some (AwaitInFlight pid)) ->
  now s < expiresAt entry ->
  let s' := step c e s in
  inFlight s' = None /\ cache s' = Some entry /\
  (forall i pid, (n0 <= i)%nat -> callers s' !! i <> Some (AwaitInFlight pid)) /\
  requests s' = requests s /\ flights s' = flights s /\
  clientIdCalls (calls s') = clientIdCalls (calls s) /\
  clientSecretCalls (calls s') = clientSecretCalls (calls s).
Proof.
  intros W I C A N s'. unfold s'. clear s'.
  assert (F : forall p f, flights s !! p = Some f ->
                          exists r, f = {| task := Settled r; promise := Some r |}).
  { intros p f H. eapply (wf_idle _ _ W); [done|]. by rewrite I. }
  destruct e as [|i|p|p r|p|p|i|ms|w']; cbn [step]; try done.
  - destruct (resolveValue _ _). cbn [inFlight cache callers requests flights calls
      clientIdCalls clientSecretCalls]. repeat (split; [done|]). split; [|done].
    intros i pid Hi. rewrite lookup_app_Some. intros [H|[_ H]]; [by eapply A|].
    by destruct (i - length (callers s))%nat as [|[|?]].
  - destruct (callers s !! i) as [[v| |]|] eqn:E; try done.
    assert (K : forall r, let s' := setCaller i (Done r) s in
      inFlight s' = None /\ cache s' = Some entry /\
      (forall i pid, (n0 <= i)%nat -> callers s' !! i <> Some (AwaitInFlight pid)) /\
      requests s' = requests s /\ flights s' = flights s /\
      clientIdCalls (calls s') = clientIdCalls (calls s) /\
      clientSecretCalls (calls s') = clientSecretCalls (calls s)).
    { intros r. unfold setCaller. cbn [inFlight cache callers requests flights calls].
      repeat (split; [done|]). split; [|done].
      intros j pid Hj. destruct (decide (j = i)) as [->|Nj].
      - by rewrite list_lookup_insert_eq by (by eapply lookup_lt_Some).
      - rewrite list_lookup_insert_ne by done. by apply A. }
    unfold afterFallback. destruct v as [v|err]; [|apply K].
    destruct (nonEmpty (nullish v _)); [apply K|].
    assert (G : nonEmpty (getCachedToken s) = Some (token entry)).
    { unfold getCachedToken. rewrite C.
      destruct (Z.gtb_spec (expiresAt entry) (now s)); [|lia].
      apply nonEmpty_Some. split; [done|]. by apply (wf_cache _ _ W). }
    rewrite G. apply K.
  - destruct (flights s !! p) as [f|] eqn:E; [|done]. by destruct (F _ _ E) as [r ->].
  - destruct (flights s !! p) as [f|] eqn:E; [|done]. by destruct (F _ _ E) as [r' ->].
  - destruct (flights s !! p) as [f|] eqn:E; [|done]. by destruct (F _ _ E) as [r ->].
  - destruct (flights s !! p) as [f|] eqn:E; [|done]. by destruct (F _ _ E) as [r ->].
  - destruct (callers s !! i) as [[v|p|]|] eqn:E; try done.
    destruct (flights s !! p) as [[t [o|]]|]; try done.
    unfold setCaller. cbn [inFlight cache callers requests flights calls].
    repeat (split; [done|]). split; [|done].
    intros j pid Hj. destruct (decide (j = i)) as [->|Nj].
    + by rewrite list_lookup_insert_eq by (by eapply lookup_lt_Some).
    + rewrite list_lookup_insert_ne by done. by apply A.
Qed.

Lemma window_run (c : Closure) (events : list Event) (s : State) (entry : TokenCacheEntry)
    (n0 : nat) :
  wf c s ->
  inFlight s = None -> cache s = Some entry ->
  (forall i pid, (n0 <= i)%nat -> callers s !! i <> Some (AwaitInFlight pid)) ->
  now s + elapsed events < expiresAt entry ->
  let s' := run c events s in
  inFlight s' = None /\ cache s' = Some entry /\
  (forall i pid, (n0 <= i)%nat -> callers s' !! i <> Some (AwaitInFlight pid)) /\
  requests s' = requests s /\ flights s' = flights s /\
  clientIdCalls (calls s') = clientIdCalls (calls s) /\
  clientSecretCalls (calls s') = clientSecretCalls (calls s).
Proof.
  revert s. induction events as [|e events IH]; intros s W I C A N; [done|].
  rewrite elapsed_cons in N.
  pose proof (elapsed_nonneg events) as P1. pose proof (elapsed_nonneg [e]) as P2.
  assert (N1 : now s < expiresAt entry) by lia.
  destruct (window_step c e s entry n0 W I C A N1) as (I' & C' & A' & R' & F' & K1 & K2).
  change (run c (e :: events) s) with (run c events (step c e s)). cbv zeta.
  assert (N2 : now (step c e s) + elapsed events < expiresAt entry)
    by (rewrite now_step; lia).
  destruct (IH (step c e s) (wf_step c e s W) I' C' A' N2) as (I2 & C2 & A2 & R2 & F2 & K3 & K4).
  repeat split; try done; congruence.
Qed.

(** X16.  While a cached credential is valid and no refresh is in
    flight, nothing a provider does touches the token endpoint: through
    any events during which the clock stays below [expiresAt], whatever
    the world becomes, the requests, the refreshes, the cache and the
    credential factories' invocation counts stay as they were, the marker
    stays clear, and no new invocation comes to wait on a refresh. *)
Theorem cache_window (w : World) (s0 : State) (entry : TokenCacheEntry)
    (events : list Event) :
  let c := create w in
  reachable w s0 ->
  inFlight s0 = None ->
  cache s0 = Some entry ->
  now s0 + elapsed events < expiresAt entry ->
  let s := run c events s0 in
  requests s = requests s0 /\ flights s = flights s0 /\
  cache s = Some entry /\ inFlight s = None /\
  clientIdCalls (calls s) = clientIdCalls (calls s0) /\
  clientSecretCalls (calls s) = clientSecretCalls (calls s0) /\
  (forall i pid, (length (callers s0) <= i)%nat -> callers s !! i <> Some (AwaitInFlight pid)).
Proof.
  intros c R I C N s.
  destruct (window_run c events s0 entry (length (callers s0))
              (reachable_wf w s0 R) I C) as (I' & C' & A' & R' & F' & K1 & K2); [|done|].
  - intros i pid Hi H. apply lookup_lt_Some in H. lia.
  - done.
Qed.

Lemma cache_window_witness :
  let c := create literalWorld in
  let s0 := run c (oneCall 0 0 (Fulfilled (tokenResponse "abc" (ENumber 3600))))
              (init literalWorld 0) in
  let entry := {| token := "abc"; expiresAt := 3540000 |} in
  let events := [Invoke; ClockAdvances 3539999; WorldChanges vaultWorld; FallbackResolved 1;
                 Invoke; FallbackResolved 2] in
  let s := run c events s0 in
  reachable literalWorld s0 /\
  inFlight s0 = None /\
  cache s0 = Some entry /\
  now s0 + elapsed events < expiresAt entry /\
  callers s = [Done (Fulfilled "abc"); Done (Fulfilled "abc"); Done (Fulfilled "abc")] /\
  requests s = requests s0 /\ flights s = flights s0.
Proof.
  intros c s0 entry events s.
  assert (R : reachable literalWorld s0)
    by (by exists 0, (oneCall 0 0 (Fulfilled (tokenResponse "abc" (ENumber 3600))))).
  assert (I : inFlight s0 = None) by reflexivity.
  assert (C : cache s0 = Some entry) by reflexivity.
  assert (N : now s0 + elapsed events < expiresAt entry) by reflexivity.
  destruct (cache_window literalWorld s0 entry events R I C N) as (E1 & E2 & _).
  split; [exact R|]. split; [exact I|]. split; [exact C|]. split; [exact N|].
  split; [reflexivity|]. split; [exact E1|exact E2].
Defined.



Lemma callers_done_step (c : Closure) (e : Event) (s : State) (i : nat) (r : Outcome string) :
  callers s !! i = Some (Done r) -> callers (step c e s) !! i = Some (Done r).
Proof.
  intros H. pose proof (callers_step c e s) as C.
  assert (K : forall j cl, callers s !! j <> Some (Done r) ->
              callers (setCaller j cl s) !! i = Some (Done r)).
  { intros j cl N. unfold setCaller. cbn [callers].
    rewrite list_lookup_insert_ne; [done|]. intros ->. by rewrite H in N. }
  destruct e as [|j|p|p o|p|p|j|ms|w']; try (by rewrite C); clear C; cbn [step].
  - destruct (resolveValue _ _). cbn [callers]. by apply lookup_app_l_Some.
  - destruct (callers s !! j) as [[v| |]|] eqn:E; try done.
    assert (N : callers s !! j <> Some (Done r)) by (by rewrite E).
    unfold afterFallback. destruct v as [v|err]; [|by apply K].
    destruct (nonEmpty (nullish v _)); [by apply K|].
    destruct (nonEmpty (getCachedToken s)); [by apply K|].
    destruct (inFlight s); [by apply K|].
    destruct (requestToken _ _). cbn [callers].
    rewrite list_lookup_insert_ne; [done|]. intros ->. by rewrite H in N.
  - destruct (callers s !! j) as [[v|p|]|] eqn:E; try done.
    assert (N : callers s !! j <> Some (Done r)) by (by rewrite E).
    destruct (flights s !! p) as [[t [o|]]|]; try done. by apply K.
Qed.

Lemma callers_grow (c : Closure) (e : Event) (s : State) :
  (length (callers s) <= length (callers (step c e s)))%nat.
Proof.
  pose proof (callers_step c e s) as C.
  destruct e as [|j|p|p o|p|p|j|ms|w']; try (by rewrite C); clear C; cbn [step].
  - destruct (resolveValue _ _). cbn [callers]. rewrite length_app. lia.
  - destruct (callers s !! j) as [[v| |]|] eqn:E; try done.
    unfold afterFallback, setCaller. repeat case_match; cbn [callers];
      rewrite ?length_insert; lia.
  - unfold setCaller. repeat case_match; cbn [callers]; rewrite ?length_insert; lia.
Qed.

Lemma calls_step (c : Closure) (e : Event) (s : State) :
  (fallbackTokenCalls (calls s) <= fallbackTokenCalls (calls (step c e s)))%nat /\
  (clientIdCalls (calls s) <= clientIdCalls (calls (step c e s)))%nat /\
  (clientSecretCalls (calls s) <= clientSecretCalls (calls (step c e s)))%nat.
Proof.
  destruct e as [|j|p|p o|p|p|j|ms|w']; cbn [step].
  - pose proof (resolveValue_count (Opts.fallbackToken (options (world s)))
                  (fallbackTokenCalls (calls s))) as L.
    destruct (resolveValue _ _). simpl in *. lia.
  - destruct (callers s !! j) as [[v| |]|] eqn:E; try done.
    unfold afterFallback. destruct v as [v|err]; [|done].
    destruct (nonEmpty (nullish v _)); [done|].
    destruct (nonEmpty (getCachedToken s)); [done|].
    destruct (inFlight s); [done|].
    unfold requestToken. destruct (fetchImpl c); [|done].
    pose proof (resolveValue_count (Opts.clientId (options (world s)))
                  (clientIdCalls (calls s))) as L1.
    pose proof (resolveValue_count (Opts.clientSecret (options (world s)))
                  (clientSecretCalls (calls s))) as L2.
    destruct (resolveValue (Opts.clientId _) _).
    destruct (resolveValue (Opts.clientSecret _) _). simpl in *. lia.
  - repeat case_match; done.
  - unfold setTask. repeat case_match; done.
  - unfold setTask. repeat case_match; done.
  - repeat case_match; done.
  - unfold setCaller. repeat case_match; done.
  - done.
  - done.
Qed.




(** X20.  The outcome of a refresh follows from the transport's answer
    alone, whatever else happens meanwhile: a failure of the transport is
    passed on as it is; a response outside 200..299 gives the endpoint
    error; a 2xx response whose body does not parse gives the parser's
    error; a body without a non-empty [access_token] gives the error
    saying so; otherwise the result is the access token.  Every
    invocation waiting on the refresh receives that outcome, and the
    refresh sends nothing further. *)
Theorem refresh_outcome (c : Closure) (s : State) (pid : nat) (answer : Outcome Response)
    (others1 others2 others3 : list Event) :
  flights s !! pid = Some {| task := Fetching; promise := None |} ->
  Forall (fun e => ~ stepOf pid e) (others1 ++ others2) ->
  let r := refreshOutcome answer in
  let s' := run c ([FetchSettled pid answer] ++ others1 ++ [BodySettled pid]
                    ++ others2 ++ [FinallyRuns pid] ++ others3) s in
  flights s' !! pid = Some {| task := Settled r; promise := Some r |} /\
  (forall i, callers s' !! i = Some (AwaitInFlight pid) ->
             callers (step c (InFlightSettled i) s') !! i = Some (Done r)) /\
  requests (run c [FetchSettled pid answer; BodySettled pid; FinallyRuns pid] s) = requests s.
Proof.
  intros Hp [H1 H2]%Forall_app r s'.
  pose proof (lookup_lt_Some _ _ _ Hp) as L.
  assert (F : flights s' !! pid = Some {| task := Settled r; promise := Some r |}).
  { unfold s'. rewrite !run_app. apply finished_stable.
    set (s1 := run c [FetchSettled pid answer] s).
    assert (E1 : flights s1 !! pid = Some {| task := afterFetch answer; promise := None |}).
    { unfold s1, run. cbn [foldl step]. rewrite Hp. by apply lookup_setTask. }
    pose proof (flight_frame_run c others1 s1 pid _ E1 H1) as E2.
    set (s2 := run c others1 s1) in *.
    assert (E3 : flights (run c [BodySettled pid] s2) !! pid
                 = Some {| task := Settled r; promise := None |}).
    { unfold run. cbn [foldl step]. rewrite E2. pose proof (lookup_lt_Some _ _ _ E2) as L2.
      unfold r, refreshOutcome, afterFetch. destruct answer as [resp|e]; [|done].
      destruct (ok resp).
      - unfold afterJson. destruct (json resp) as [data|e].
        + destruct (nonEmpty (access_token data)); cbn [flights];
            by apply list_lookup_insert_eq.
        + cbn [flights]. by apply list_lookup_insert_eq.
      - by apply lookup_setTask. }
    pose proof (flight_frame_run c others2 _ pid _ E3 H2) as E4.
    set (s4 := run c others2 _) in *.
    unfold run. cbn [foldl step]. rewrite E4. simpl.
    apply list_lookup_insert_eq. by eapply lookup_lt_Some. }
  split; [exact F|]. split.
  - intros i Hi. cbn [step]. rewrite Hi, F. simpl.
    apply list_lookup_insert_eq. by eapply lookup_lt_Some.
  - change [FetchSettled pid answer; BodySettled pid; FinallyRuns pid]
      with ([FetchSettled pid answer] ++ [BodySettled pid] ++ [FinallyRuns pid]).
    rewrite !run_app. unfold run. cbn [foldl].
    rewrite !requests_other; done.
Qed.

Lemma refresh_outcome_witness :
  let c := create literalWorld in
  let s := run c [Invoke; Invoke; FallbackResolved 0; CredentialsResolved 0]
             (init literalWorld 0) in
  let answer := Rejected (MkError "ECONNRESET") in
  let s' := run c ([FetchSettled 0 answer] ++ [FallbackResolved 1] ++ [BodySettled 0]
                    ++ [ClockAdvances 5] ++ [FinallyRuns 0] ++ [Invoke]) s in
  flights s !! 0%nat = Some {| task := Fetching; promise := None |} /\
  Forall (fun e => ~ stepOf 0 e) ([FallbackResolved 1] ++ [ClockAdvances 5]) /\
  callers s' !! 1%nat = Some (AwaitInFlight 0) /\
  callers (step c (InFlightSettled 1) s') !! 1%nat
    = Some (Done (Rejected (MkError "ECONNRESET"))).
Proof.
  intros c s answer s'.
  assert (H1 : flights s !! 0%nat = Some {| task := Fetching; promise := None |})
    by reflexivity.
  assert (H2 : Forall (fun e => ~ stepOf 0 e) ([FallbackResolved 1] ++ [ClockAdvances 5])).
  { repeat constructor; simpl; tauto. }
  assert (H3 : callers s' !! 1%nat = Some (AwaitInFlight 0)) by reflexivity.
  destruct (refresh_outcome c s 0 answer [FallbackResolved 1] [ClockAdvances 5] [Invoke]
              H1 H2) as (_ & Hcl & _).
  split; [exact H1|]. split; [exact H2|]. split; [exact H3|]. exact (Hcl 1%nat H3).
Defined.

(** X21.  A fallback token given as the empty string switches the
    environment's [ALVYS_TOKEN] off: such an invocation is never answered
    from the environment.  If it returns at its fallback step, it returns
    the token of a cached credential that is still valid; without one it
    waits on the refresh in flight, or starts one. *)
Theorem empty_fallback (c : Closure) (s : State) (i : nat) :
  callers s !! i = Some (AwaitFallback (Fulfilled (Some ""))) ->
  let s' := step c (FallbackResolved i) s in
  (forall r, callers s' !! i = Some (Done r) ->
     exists entry, cache s = Some entry /\ now s < expiresAt entry /\
                   r = Fulfilled (token entry)) /\
  (nonEmpty (getCachedToken s) = None ->
   exists pid, callers s' !! i = Some (AwaitInFlight pid) /\ inFlight s' = Some pid /\
               (inFlight s = None -> pid = length (flights s)) /\
               (inFlight s <> None -> inFlight s = Some pid /\ flights s' = flights s)).
Proof.
  intros H s'. unfold s'. clear s'. cbn [step]. rewrite H.
  pose proof (lookup_lt_Some _ _ _ H) as L.
  unfold afterFallback. cbn [nullish nonEmpty String.eqb].
  destruct (nonEmpty (getCachedToken s)) as [cached|] eqn:G.
  - split; [|done]. unfold setCaller. cbn [callers].
    rewrite list_lookup_insert_eq by done. intros r [= <-].
    apply nonEmpty_Some in G as [G _]. unfold getCachedToken in G.
    destruct (cache s) as [entry|]; [|done].
    destruct (Z.gtb_spec (expiresAt entry) (now s)); [|done].
    injection G as <-. by exists entry.
  - destruct (inFlight s) as [pid|] eqn:I.
    + unfold setCaller. cbn [callers inFlight flights].
      rewrite list_lookup_insert_eq by done. split; [done|]. intros _. exists pid.
      by repeat split.
    + destruct (requestToken c s) as [t n]. cbn [callers inFlight flights].
      rewrite list_lookup_insert_eq by done. split; [done|]. intros _.
      exists (length (flights s)). by repeat split.
Qed.

Lemma empty_fallback_witness :
  let c := create blankFallbackWorld in
  let s := run c [Invoke] (init blankFallbackWorld 0) in
  let s' := step c (FallbackResolved 0) s in
  callers s !! 0%nat = Some (AwaitFallback (Fulfilled (Some ""))) /\
  getEnv (world s) "ALVYS_TOKEN" = Some "manual-token" /\
  nonEmpty (getCachedToken s) = None /\
  exists pid, callers s' !! 0%nat = Some (AwaitInFlight pid) /\ inFlight s' = Some pid.
Proof.
  intros c s s'.
  assert (H : callers s !! 0%nat = Some (AwaitFallback (Fulfilled (Some "")))) by reflexivity.
  assert (G : nonEmpty (getCachedToken s) = None) by reflexivity.
  destruct (empty_fallback c s 0 H) as (_ & E).
  destruct (E G) as (pid & E1 & E2 & _).
  split; [exact H|]. split; [reflexivity|]. split; [exact G|]. by exists pid.
Defined.
End LifecycleFacts.
